(** * Prefix-level KMS keys for S3: reconciliation and remediation

    A shallow embedding of the two Lambda handlers of the repository:
    - [cdk/resources/custom_resources/ddb_custom_resource.py], the custom
      resource that keeps the prefix-to-key mapping table in step with the
      mapping data of a bucket;
    - [cdk/resources/fix_encryption/fix_encryption.py] and [s3_encrypt.py],
      the queue consumer that re-encrypts objects whose encryption does not
      match the mapping table and logs every decision.

    DynamoDB tables are finite maps keyed by (partition key, sort key); S3 is
    a finite map from (bucket, key) to the versions of the object, newest
    first. Python [str] values are byte strings ([string]); DynamoDB orders
    string sort keys by their bytes, which is [String.compare]. The AWS
    services are part of the state ([world]); what they choose on their own
    (the time, the version id of a new object) is read from the world.

    What the model leaves out: the [print]s; the paging of DynamoDB
    queries (a query returns all the items it selects); delete markers of
    S3; failures of the services other than a missing object, a missing
    version and a failed condition of [update_item]; events and messages
    that do not have the shape AWS gives them. *)

From Stdlib Require Import String Ascii List Bool Arith Lia.
From stdpp Require Import base option list gmap strings sorting.

Local Open Scope string_scope.
Local Open Scope list_scope.

(** ** Strings *)

Module StrOrd.

(** Byte-wise order, the order of DynamoDB string sort keys. *)
Definition le (s1 s2 : string) : Prop := String.leb s1 s2 = true.

#[global] Instance le_dec : RelDecision le.
Proof. intros s1 s2. unfold le. apply _. Defined.

(** [startswith s p] is Python's [s.startswith(p)]. *)
Definition startswith (s p : string) : bool := String.prefix p s.

End StrOrd.

(** Python truth value of an optional string: [None] and [''] are false. *)
Definition truthy (o : option string) : bool :=
  match o with
  | Some s => negb (String.eqb s "")
  | None => false
  end.

(** [f'{x}'] of an optional string. *)
Definition fmt (o : option string) : string := default "None" o.

(** ** The state of the AWS account *)

(** Item of the mapping table: partition key [bucket_name], sort key
    [prefix]; these are the other attributes, as [insert_ddb_items] and
    [update_ddb_items] write them. *)
Record mapping_item := MappingItem {
  kms_key_arn : string;
  dual_layer_encryption : bool;
  insert_ts : string;
  last_update_ts : string
}.

(** Item of the log table: partition key [s3_object_path], sort key
    [current_timestamp_utc]; these are the other attributes. *)
Record log_item := LogItem {
  current_sse_type : string;
  current_kms_key_arn : string;
  new_sse_type : string;
  new_kms_key_arn : string;
  action_taken : string;
  action_reason : string;
  new_version_id : option string
}.

(** One version of an S3 object, with the two response headers
    [x-amz-server-side-encryption] and
    [x-amz-server-side-encryption-aws-kms-key-id] that [get_object] reports. *)
Record s3_version := S3Version {
  version_id : string;
  sse_type : string;
  sse_kms_key_id : option string;
  body : string
}.

(** The requests that changed something, as they were served. *)
Inductive api_call :=
| S3CopyObject (bucket key src_version sse kms : string)
| S3Copy (bucket key sse kms : string)
| S3DeleteObject (bucket key version : string)
| LogPutItem (s3_object_path ts : string) (it : log_item)
| MappingPutItem (bucket prefix : string) (it : mapping_item)
| MappingUpdateItem (bucket prefix : string) (it : mapping_item)
| MappingDeleteItem (bucket prefix : string).

Record world := World {
  s3_objects : gmap (string * string) (list s3_version);
  ddb_mapping : gmap (string * string) mapping_item;
  ddb_log : gmap (string * string) log_item;
  (** [datetime.now] formatted: the [n]-th reading of the clock. *)
  clock : nat -> string;
  ticks : nat;
  (** The version id S3 gives to the [n]-th object it creates. *)
  version_ids : nat -> string;
  copies : nat;
  calls : list api_call
}.

Definition set_s3 (f : gmap (string * string) (list s3_version) ->
                       gmap (string * string) (list s3_version)) (w : world) : world :=
  World (f (s3_objects w)) (ddb_mapping w) (ddb_log w) (clock w) (ticks w)
        (version_ids w) (copies w) (calls w).

Definition set_mapping (f : gmap (string * string) mapping_item ->
                            gmap (string * string) mapping_item) (w : world) : world :=
  World (s3_objects w) (f (ddb_mapping w)) (ddb_log w) (clock w) (ticks w)
        (version_ids w) (copies w) (calls w).

Definition set_log (f : gmap (string * string) log_item ->
                        gmap (string * string) log_item) (w : world) : world :=
  World (s3_objects w) (ddb_mapping w) (f (ddb_log w)) (clock w) (ticks w)
        (version_ids w) (copies w) (calls w).

Definition tick (w : world) : world :=
  World (s3_objects w) (ddb_mapping w) (ddb_log w) (clock w) (S (ticks w))
        (version_ids w) (copies w) (calls w).

Definition next_copy (w : world) : world :=
  World (s3_objects w) (ddb_mapping w) (ddb_log w) (clock w) (ticks w)
        (version_ids w) (S (copies w)) (calls w).

Definition record_call (c : api_call) (w : world) : world :=
  World (s3_objects w) (ddb_mapping w) (ddb_log w) (clock w) (ticks w)
        (version_ids w) (copies w) (calls w ++ [c]).

(** ** Exceptions and the monad of the handlers *)

Inductive exn :=
| NoSuchKey
| NoSuchVersion
| ConditionalCheckFailedException
| KeyError (k : string)
| UnboundLocalError (name : string)
| InvalidRequestType (request_type : string).

(** A computation changes the world and returns or raises; what it changed
    before it raised stays changed. *)
Definition M (A : Type) : Type := world -> world * (exn + A).

Definition ret {A} (a : A) : M A := fun w => (w, inr a).

Definition raise {A} (e : exn) : M A := fun w => (w, inl e).

Definition bind {A B} (m : M A) (k : A -> M B) : M B := fun w =>
  match m w with
  | (w', inr a) => k a w'
  | (w', inl e) => (w', inl e)
  end.

Definition try_except {A} (m : M A) (handler : exn -> M A) : M A := fun w =>
  match m w with
  | (w', inr a) => (w', inr a)
  | (w', inl e) => handler e w'
  end.

Definition gets {A} (f : world -> A) : M A := fun w => (w, inr (f w)).

Definition modify (f : world -> world) : M unit := fun w => (f w, inr tt).

Declare Scope aws_scope.
Delimit Scope aws_scope with aws.
Notation "x <- c1 ;; c2" := (bind c1 (fun x => c2))
  (at level 100, c1 at next level, right associativity) : aws_scope.
Notation "c1 ;;; c2" := (bind c1 (fun _ => c2))
  (at level 100, right associativity) : aws_scope.
Local Open Scope aws_scope.

(** [datetime.datetime.strftime(datetime.datetime.now(...), ...)] *)
Definition now : M string := fun w => (tick w, inr (clock w (ticks w))).

(** Whether a run returned. *)
Definition returned {A} (r : world * (exn + A)) : bool :=
  match r.2 with inr _ => true | inl _ => false end.

(** ** fix_encryption.py *)

Module FixEncryption.

(** *** S3 *)

Definition find_version (vs : list s3_version) (v : string) : option s3_version :=
  List.find (fun x => String.eqb (version_id x) v) vs.

(** What [s3.get_object] answers: the latest version, or the version asked
    for, or a [ClientError]. *)
Definition lookup_object (s : gmap (string * string) (list s3_version))
    (bucket key : string) (version : option string) : exn + s3_version :=
  match s !! (bucket, key) with
  | None => inl NoSuchKey
  | Some vs =>
      match version with
      | None =>
          match vs with
          | [] => inl NoSuchKey
          | o :: _ => inr o
          end
      | Some v =>
          match find_version vs v with
          | None => inl NoSuchVersion
          | Some o => inr o
          end
      end
  end.

Definition get_object (bucket key : string) (version : option string) : M s3_version :=
  fun w => (w, lookup_object (s3_objects w) bucket key version).

Definition remove_version (v : string) (vs : list s3_version) : list s3_version :=
  List.filter (fun x => negb (String.eqb (version_id x) v)) vs.

(** A new object becomes the latest version; it replaces a version with
    its own id (the [null] version of a bucket without versioning). *)
Definition put_version (o : s3_version) (vs : list s3_version) : list s3_version :=
  o :: remove_version (version_id o) vs.

(** The world after S3 stored a copy of [src] under the id [nv]. *)
Definition stored_copy (bucket key : string) (src : s3_version) (nv kms sse : string)
    (call : api_call) (w : world) : world :=
  record_call call (next_copy (set_s3 (fun s =>
    <[(bucket, key) :=
        put_version {| version_id := nv; sse_type := sse;
                       sse_kms_key_id := Some kms; body := body src |}
                    (default [] (s !! (bucket, key)))]> s) w)).

(** A copy of an object onto itself with another encryption: S3 reads the
    source, names the new version and stores it. *)
Definition copy_onto_itself (bucket key : string) (src_version : option string)
    (kms sse : string) (call : api_call) : M string :=
  src <- get_object bucket key src_version ;;
  nv <- gets (fun w => version_ids w (copies w)) ;;
  modify (stored_copy bucket key src nv kms sse call) ;;;
  ret nv.

(** [s3.copy_object(..., CopySource = {..., 'VersionId': version_id},
    SSEKMSKeyId = ..., ServerSideEncryption = ...)]; the result is
    [response['VersionId']]. *)
Definition copy_object (bucket key version kms sse : string) : M string :=
  copy_onto_itself bucket key (Some version) kms sse
                   (S3CopyObject bucket key version sse kms).

(** [s3.copy(..., CopySource = {'Bucket', 'Key'}, ExtraArgs = ...)] *)
Definition copy (bucket key kms sse : string) : M unit :=
  copy_onto_itself bucket key None kms sse (S3Copy bucket key sse kms) ;;;
  ret tt.

(** The world after S3 removed a version. *)
Definition deleted (bucket key version : string) (w : world) : world :=
  record_call (S3DeleteObject bucket key version)
    (set_s3 (alter (remove_version version) (bucket, key)) w).

(** [s3.delete_object(Bucket, Key, VersionId)] *)
Definition delete_object (bucket key version : string) : M unit :=
  modify (deleted bucket key version).

(** *** log_action_into_ddb *)

(** The [item] of the function, without its two key attributes. *)
Definition log_entry (current_sse_type : string) (current_kms_key_arn : option string)
    (new_sse_type new_kms_key_arn action_taken action_reason : string)
    (new_version_id : option string) : log_item :=
  {| current_sse_type := current_sse_type;
     current_kms_key_arn :=
       if truthy current_kms_key_arn then fmt current_kms_key_arn else "None";
     new_sse_type := new_sse_type;
     new_kms_key_arn := new_kms_key_arn;
     action_taken := action_taken;
     action_reason := action_reason;
     new_version_id := if truthy new_version_id then new_version_id else None |}.

(** The world after [ddb.put_item] on the log table. *)
Definition logged (s3_object_path ts : string) (it : log_item) (w : world) : world :=
  record_call (LogPutItem s3_object_path ts it)
    (set_log (insert (s3_object_path, ts) it) w).

Definition log_action_into_ddb (s3_object_path current_sse_type : string)
    (current_kms_key_arn : option string)
    (new_sse_type new_kms_key_arn action_taken action_reason : string)
    (new_version_id : option string) : M unit :=
  ts <- now ;;
  modify (logged s3_object_path ts
            (log_entry current_sse_type current_kms_key_arn new_sse_type
                       new_kms_key_arn action_taken action_reason new_version_id)).

(** *** get_kms_key_info_for_s3_prefix *)

(** Descending order of the sort key ([ScanIndexForward = False]). *)
Definition prefix_desc (x y : string * mapping_item) : Prop := StrOrd.le y.1 x.1.

#[global] Instance prefix_desc_dec : RelDecision prefix_desc.
Proof. intros x y. unfold prefix_desc. apply _. Defined.

(** [ddb.query] with [KeyConditionExpression =
    'bucket_name = :bucket_name and prefix <= :object_name'] and
    [ScanIndexForward = False]: the items of the bucket whose prefix is at
    most the object name, largest prefix first. An item is given as its
    sort key with its attributes. *)
Definition query_prefix_le (t : gmap (string * string) mapping_item)
    (bucket_name object_name : string) : list (string * mapping_item) :=
  merge_sort prefix_desc
    ((fun kv : string * string * mapping_item => (kv.1.2, kv.2)) <$>
     filter (fun kv : string * string * mapping_item =>
               kv.1.1 = bucket_name /\ StrOrd.le kv.1.2 object_name)
            (map_to_list t)).

(** The dictionary the function returns. *)
Record kms_key_info := KmsKeyInfo {
  info_kms_key_arn : string;
  info_dual_layer_encryption : bool
}.

Definition info_of (r : mapping_item) : kms_key_info :=
  {| info_kms_key_arn := kms_key_arn r;
     info_dual_layer_encryption := dual_layer_encryption r |}.

(** The loop over [result['Items']] with its [break]. *)
Fixpoint first_match (object_name : string) (items : list (string * mapping_item))
  : option kms_key_info :=
  match items with
  | [] => None
  | item :: rest =>
      if StrOrd.startswith object_name item.1
      then Some (info_of item.2)
      else first_match object_name rest
  end.

(** The function reads the mapping table and nothing else of the world. *)
Definition get_kms_key_info_for_s3_prefix (t : gmap (string * string) mapping_item)
    (bucket_name object_name : string) : option kms_key_info :=
  first_match object_name (query_prefix_le t bucket_name object_name).

(** The spec's wording of the resolver: [p] is a stored prefix of the
    bucket that the object key starts with, and no stored prefix of the
    bucket that the key starts with is longer. *)
Definition longest_stored_prefix (t : gmap (string * string) mapping_item)
    (bucket_name object_name p : string) (r : mapping_item) : Prop :=
  t !! (bucket_name, p) = Some r /\
  StrOrd.startswith object_name p = true /\
  forall q r', t !! (bucket_name, q) = Some r' ->
               StrOrd.startswith object_name q = true ->
               String.length q <= String.length p.

(** *** fix_encryption_if_incorrect *)

Definition ACTION_NONE := "None".
Definition ACTION_COPY := "Initiated copy with the right key".
Definition ACTION_DELETE := "Deleted old version with incorrect encryption".
Definition REASON_NOT_CONFIGURED := "No KMS key configured for this object's prefix".
Definition REASON_CORRECT := "Already using the correct key".

Definition reason_sse (current_sse_type new_sse_type : string) : string :=
  "Incorrect SSE type. Was " +:+ current_sse_type +:+
  " whereas it should have been " +:+ new_sse_type.

Definition reason_key (current_kms_key_arn : option string) (new_kms_key_arn : string)
  : string :=
  "Incorrect KMS key. Was " +:+ fmt current_kms_key_arn +:+
  " whereas it should hve been " +:+ new_kms_key_arn.

(** [s3_object_path] of the first lines of the function. *)
Definition object_path (bucket_name object_name : string) (version_id : option string)
  : string :=
  if truthy version_id
  then "s3://" +:+ bucket_name +:+ "/" +:+ object_name +:+
       "?versionId=" +:+ fmt version_id
  else "s3://" +:+ bucket_name +:+ "/" +:+ object_name.

(** The version the first lines of the function ask S3 for. *)
Definition requested (version_id : option string) : option string :=
  if truthy version_id then Some (fmt version_id) else None.

(** The encryption type a record asks for. *)
Definition sse_type_of (dual_layer_encryption : bool) : string :=
  if dual_layer_encryption then "aws:kms:dsse" else "aws:kms".

Definition key_matches (current_kms_key_arn : option string) (new_kms_key_arn : string)
  : bool :=
  match current_kms_key_arn with
  | Some k => String.eqb k new_kms_key_arn
  | None => false
  end.

Definition fix_encryption_if_incorrect (bucket_name object_name : string)
    (version_id : option string) : M unit :=
  response <- (if truthy version_id
               then get_object bucket_name object_name (Some (fmt version_id))
               else get_object bucket_name object_name None) ;;
  let s3_object_path := object_path bucket_name object_name version_id in
  let current_sse_type := sse_type response in
  let current_kms_key_arn := sse_kms_key_id response in
  correct_kms_key_info <-
    gets (fun w => get_kms_key_info_for_s3_prefix (ddb_mapping w)
                     bucket_name object_name) ;;
  match correct_kms_key_info with
  | None =>
      log_action_into_ddb s3_object_path current_sse_type current_kms_key_arn
        "None" "None" ACTION_NONE REASON_NOT_CONFIGURED None
  | Some info =>
      let new_kms_key_arn := info_kms_key_arn info in
      let new_sse_type := sse_type_of (info_dual_layer_encryption info) in
      if String.eqb current_sse_type new_sse_type
         && key_matches current_kms_key_arn new_kms_key_arn
      then
        log_action_into_ddb s3_object_path current_sse_type current_kms_key_arn
          new_sse_type new_kms_key_arn ACTION_NONE REASON_CORRECT None
      else
        action_reason <-
          (if negb (String.eqb current_sse_type new_sse_type)
           then ret (reason_sse current_sse_type new_sse_type)
           else if negb (key_matches current_kms_key_arn new_kms_key_arn)
           then ret (reason_key current_kms_key_arn new_kms_key_arn)
           else raise (UnboundLocalError "action_reason")) ;;
        if truthy version_id
        then
          new_version_id <- copy_object bucket_name object_name (fmt version_id)
                                        new_kms_key_arn new_sse_type ;;
          log_action_into_ddb s3_object_path current_sse_type current_kms_key_arn
            new_sse_type new_kms_key_arn ACTION_COPY action_reason
            (Some new_version_id) ;;;
          delete_object bucket_name object_name (fmt version_id) ;;;
          log_action_into_ddb s3_object_path current_sse_type current_kms_key_arn
            "N/A" "N/A" ACTION_DELETE "N/A" None
        else
          copy bucket_name object_name new_kms_key_arn new_sse_type ;;;
          log_action_into_ddb s3_object_path current_sse_type current_kms_key_arn
            new_sse_type new_kms_key_arn ACTION_COPY action_reason None
  end.

(** Whether the encryption of an object is the one a record asks for:
    the test of the function, on the record. *)
Definition compliant (o : s3_version) (r : mapping_item) : bool :=
  String.eqb (sse_type o) (sse_type_of (dual_layer_encryption r))
  && key_matches (sse_kms_key_id o) (kms_key_arn r).

(** The [action_reason] of a rewrite. *)
Definition mismatch_reason (o : s3_version) (r : mapping_item) : string :=
  if negb (String.eqb (sse_type o) (sse_type_of (dual_layer_encryption r)))
  then reason_sse (sse_type o) (sse_type_of (dual_layer_encryption r))
  else reason_key (sse_kms_key_id o) (kms_key_arn r).

(** The function run [n] times in a row on one object. *)
Fixpoint rerun (n : nat) (bucket_name object_name : string) (version_id : option string)
  : M unit :=
  match n with
  | 0 => ret tt
  | S n =>
      fix_encryption_if_incorrect bucket_name object_name version_id ;;;
      rerun n bucket_name object_name version_id
  end.

(** Two object paths of one object with different version suffixes. *)
Definition distinct_version_suffixes (path1 path2 : string) : Prop :=
  exists base v1 v2,
    path1 = base +:+ "?versionId=" +:+ v1 /\
    path2 = base +:+ "?versionId=" +:+ v2 /\ v1 <> v2.

(** The spec's wording of the log of a versioned remediation: the run puts
    two entries, the rewrite with the id of the new version and then the
    deletion of the stale version, under object paths with different
    version suffixes. *)
Definition versioned_log_as_specified (w : world) (bucket_name object_name v : string)
  : Prop :=
  let run := fix_encryption_if_incorrect bucket_name object_name (Some v) w in
  exists copy_call path1 ts1 it1 delete_call path2 ts2 it2,
    calls run.1 = calls w ++ [copy_call; LogPutItem path1 ts1 it1;
                              delete_call; LogPutItem path2 ts2 it2] /\
    action_taken it1 = ACTION_COPY /\
    new_version_id it1 = Some (version_ids w (copies w)) /\
    action_taken it2 = ACTION_DELETE /\
    distinct_version_suffixes path1 path2.

End FixEncryption.

(** ** s3_encrypt.py *)

Module S3Encrypt.
Import FixEncryption.

(** One element of [s3_recs["Records"]]: [rec['s3']['bucket']['name']],
    [rec['s3']['object']['key']] as sent (quoted), and
    [rec['s3']['object']['versionId']] when the key is there. *)
Record s3_record := S3Record {
  rec_bucket_name : string;
  rec_object_key : string;
  rec_version_id : option string
}.

(** One element of [event['Records']]: its [messageId], and what
    [json.loads(sqs_msg['body'])] has under ["Records"], [None] when the
    body has no such field. *)
Record sqs_message := SqsMessage {
  messageId : string;
  sqs_body : option (list s3_record)
}.

(** The dictionary the handler returns; [batchItemFailures] holds the
    [itemIdentifier] of each of its elements. *)
Record response := Response {
  statusCode : nat;
  batchItemFailures : option (list string)
}.

Section Handler.

(** [urllib.parse.unquote_plus(_, encoding='utf-8')] *)
Variable unquote_plus : string -> string.

(** The body of the inner loop, with its [try] and [except]. *)
Definition process_record (message_id : string) (st : world * list string)
    (rec : s3_record) : world * list string :=
  let bucket_name := rec_bucket_name rec in
  let object_name := unquote_plus (rec_object_key rec) in
  let version_id := rec_version_id rec in
  match fix_encryption_if_incorrect bucket_name object_name version_id st.1 with
  | (w', inr _) => (w', st.2)
  | (w', inl _) => (w', st.2 ++ [message_id])
  end.

(** The body of the outer loop. *)
Definition process_message (st : world * list string) (sqs_msg : sqs_message)
  : world * list string :=
  match sqs_body sqs_msg with
  | Some s3_recs => foldl (process_record (messageId sqs_msg)) st s3_recs
  | None => st
  end.

Definition lambda_handler (event : list sqs_message) (w : world) : world * response :=
  let st := foldl process_message (w, []) event in
  if Nat.eqb (length st.2) 0
  then (st.1, {| statusCode := 200; batchItemFailures := None |})
  else (st.1, {| statusCode := 500; batchItemFailures := Some st.2 |}).

(** The remediation of one of the records raises, when the records are
    processed one after the other from the world [w]. *)
Fixpoint some_record_raises (w : world) (s3_recs : list s3_record) : Prop :=
  match s3_recs with
  | [] => False
  | rec :: rest =>
      let run := fix_encryption_if_incorrect (rec_bucket_name rec)
                   (unquote_plus (rec_object_key rec)) (rec_version_id rec) w in
      returned run = false \/ some_record_raises run.1 rest
  end.

(** A message failed when the remediation of one of its records raised. *)
Definition message_failed (w : world) (sqs_msg : sqs_message) : Prop :=
  match sqs_body sqs_msg with
  | Some s3_recs => some_record_raises w s3_recs
  | None => False
  end.

(** The world in which the [i]-th message of the batch is processed. *)
Definition world_before (event : list sqs_message) (w : world) (i : nat) : world :=
  (foldl process_message (w, []) (take i event)).1.

(** The [i]-th message of the batch is [sqs_msg], and it failed. *)
Definition failed_in (event : list sqs_message) (w : world) (i : nat)
    (sqs_msg : sqs_message) : Prop :=
  event !! i = Some sqs_msg /\ message_failed (world_before event w i) sqs_msg.

End Handler.

(** The identifiers a response lists, none when it has no list. *)
Definition failures_of (r : response) : list string :=
  default [] (batchItemFailures r).

(** The decoder on keys that have nothing to decode (no [+], no [%]). *)
Definition unquote_plain (s : string) : string := s.

End S3Encrypt.

(** ** ddb_custom_resource.py *)

Module DdbCustomResource.

(** A value of [MappingData]; [dual_layer_encryption] is the string
    ['true'] or ['false']. *)
Record mapping_entry := MappingEntry {
  entry_kms_key_arn : string;
  entry_dual_layer_encryption : string
}.

(** [MappingData]: the entries of the dictionary in the order of its keys. *)
Definition mapping_data_t := list (string * mapping_entry).

Record resource_properties := ResourceProperties {
  MappingData : mapping_data_t;
  TableName : string;
  BucketName : string
}.

Record event_t := Event {
  RequestType : string;
  PhysicalResourceId : option string;
  props : resource_properties
}.

(** [prefix in mapping_data] *)
Definition contains (mapping_data : mapping_data_t) (prefix : string) : bool :=
  existsb (String.eqb prefix) mapping_data.*1.

(** [mapping_data[prefix]] *)
Fixpoint lookup_entry (mapping_data : mapping_data_t) (prefix : string)
  : option mapping_entry :=
  match mapping_data with
  | [] => None
  | (p, e) :: rest => if String.eqb prefix p then Some e else lookup_entry rest prefix
  end.

(** The world after a write to the mapping table. *)
Definition mapping_written (c : api_call)
    (f : gmap (string * string) mapping_item -> gmap (string * string) mapping_item)
    (w : world) : world :=
  record_call c (set_mapping f w).

(** [batch.put_item] of [insert_ddb_items]: the item replaces what the
    table has under the key. *)
Definition put_item (bucket_name prefix : string) (it : mapping_item) : M unit :=
  modify (mapping_written (MappingPutItem bucket_name prefix it)
                          (insert (bucket_name, prefix) it)).

Fixpoint insert_ddb_items (bucket_name : string) (mapping_data : mapping_data_t)
  : M unit :=
  match mapping_data with
  | [] => ret tt
  | (prefix, e) :: rest =>
      let kms_key_arn := entry_kms_key_arn e in
      let dual_layer_encryption := entry_dual_layer_encryption e in
      curr_ts <- now ;;
      put_item bucket_name prefix
        {| kms_key_arn := kms_key_arn;
           dual_layer_encryption := String.eqb dual_layer_encryption "true";
           insert_ts := curr_ts;
           last_update_ts := curr_ts |} ;;;
      insert_ddb_items bucket_name rest
  end.

(** Ascending order of the sort key. *)
Definition prefix_asc (x y : string * string) : Prop := StrOrd.le x.2 y.2.

#[global] Instance prefix_asc_dec : RelDecision prefix_asc.
Proof. intros x y. unfold prefix_asc. apply _. Defined.

(** [query_table(table, key='bucket_name', value=bucket_name)]: the keys
    of all the items of the bucket. *)
Definition query_table (bucket_name : string) : M (list (string * string)) :=
  gets (fun w =>
    merge_sort prefix_asc
      (filter (fun k : string * string => k.1 = bucket_name)
              (map_to_list (ddb_mapping w)).*1)).

(** [batch.delete_item(Key = item)] *)
Definition delete_item (key : string * string) : M unit :=
  modify (mapping_written (MappingDeleteItem key.1 key.2) (delete key)).

Fixpoint delete_each (items : list (string * string)) : M unit :=
  match items with
  | [] => ret tt
  | item :: rest => delete_item item ;;; delete_each rest
  end.

Definition delete_ddb_items (bucket_name : string) : M unit :=
  items <- query_table bucket_name ;;
  delete_each items.

(** [table.update_item] with
    [UpdateExpression = "SET kms_key_arn = :k, dual_layer_encryption = :d,
    last_update_ts = :t, insert_ts = if_not_exists(insert_ts, :t)"] and
    [ConditionExpression = "kms_key_arn <> :k or dual_layer_encryption <> :d"].
    Where there is no item the condition holds and the item is created
    (the comment of [update_ddb_items]: "If the item does not exist,
    update_item just inserts the data"). *)
Definition update_item (bucket_name prefix k : string) (d : bool) (t : string)
  : M unit :=
  fun w =>
    let write it :=
      (mapping_written (MappingUpdateItem bucket_name prefix it)
                       (insert (bucket_name, prefix) it) w, inr tt) in
    match ddb_mapping w !! (bucket_name, prefix) with
    | None =>
        write {| kms_key_arn := k; dual_layer_encryption := d;
                 insert_ts := t; last_update_ts := t |}
    | Some r =>
        if negb (String.eqb (kms_key_arn r) k)
           || negb (Bool.eqb (dual_layer_encryption r) d)
        then write {| kms_key_arn := k; dual_layer_encryption := d;
                      insert_ts := insert_ts r; last_update_ts := t |}
        else (w, inl ConditionalCheckFailedException)
    end.

Fixpoint update_ddb_items (bucket_name : string) (mapping_data : mapping_data_t)
  : M unit :=
  match mapping_data with
  | [] => ret tt
  | (prefix, e) :: rest =>
      let kms_key_arn := entry_kms_key_arn e in
      let dual_layer_encryption := entry_dual_layer_encryption e in
      t <- now ;;
      try_except
        (update_item bucket_name prefix kms_key_arn
                     (String.eqb dual_layer_encryption "true") t)
        (fun e => match e with
                  | ConditionalCheckFailedException => ret tt
                  | _ => raise e
                  end) ;;;
      update_ddb_items bucket_name rest
  end.

Fixpoint delete_missing (mapping_data : mapping_data_t) (items : list (string * string))
  : M unit :=
  match items with
  | [] => ret tt
  | item :: rest =>
      let prefix := item.2 in
      (if negb (contains mapping_data prefix) then delete_item item else ret tt) ;;;
      delete_missing mapping_data rest
  end.

Definition delete_missing_ddb_items (bucket_name : string) (mapping_data : mapping_data_t)
  : M unit :=
  items <- query_table bucket_name ;;
  delete_missing mapping_data items.

(** [event["PhysicalResourceId"]] *)
Definition physical_resource_id (event : event_t) : M string :=
  match PhysicalResourceId event with
  | Some physical_id => ret physical_id
  | None => raise (KeyError "PhysicalResourceId")
  end.

Definition on_create (event : event_t) : M string :=
  let mapping_data := MappingData (props event) in
  let bucket_name := BucketName (props event) in
  insert_ddb_items bucket_name mapping_data ;;;
  ret ("CRToManageMappingForBucket" +:+ bucket_name).

Definition on_update (event : event_t) : M string :=
  physical_id <- physical_resource_id event ;;
  let mapping_data := MappingData (props event) in
  let bucket_name := BucketName (props event) in
  update_ddb_items bucket_name mapping_data ;;;
  delete_missing_ddb_items bucket_name mapping_data ;;;
  ret physical_id.

Definition on_delete (event : event_t) : M string :=
  physical_id <- physical_resource_id event ;;
  let bucket_name := BucketName (props event) in
  delete_ddb_items bucket_name ;;;
  ret physical_id.

Definition on_event (event : event_t) : M string :=
  let request_type := RequestType event in
  if String.eqb request_type "Create" then on_create event
  else if String.eqb request_type "Update" then on_update event
  else if String.eqb request_type "Delete" then on_delete event
  else raise (InvalidRequestType request_type).

(** The stored record has the key and the flag of the entry: the
    negation of the [ConditionExpression]. *)
Definition up_to_date (r : mapping_item) (e : mapping_entry) : bool :=
  String.eqb (kms_key_arn r) (entry_kms_key_arn e)
  && Bool.eqb (dual_layer_encryption r) (String.eqb (entry_dual_layer_encryption e) "true").

(** The item the [UpdateExpression] leaves, over the item [old] if any. *)
Definition upserted (old : option mapping_item) (e : mapping_entry) (t : string)
  : mapping_item :=
  {| kms_key_arn := entry_kms_key_arn e;
     dual_layer_encryption := String.eqb (entry_dual_layer_encryption e) "true";
     insert_ts := match old with Some r => insert_ts r | None => t end;
     last_update_ts := t |}.

(** Whether the update of a prefix writes. *)
Definition writes (old : option mapping_item) (e : mapping_entry) : bool :=
  match old with
  | Some r => negb (up_to_date r e)
  | None => true
  end.

(** The record of a prefix of the mapping data after the update. *)
Definition reconciled (old : option mapping_item) (e : mapping_entry) (t : string)
  : option mapping_item :=
  if writes old e then Some (upserted old e t) else old.

(** The world after one round of the loop of [update_ddb_items]. *)
Definition update_step (b p : string) (e : mapping_entry) (w : world) : world :=
  let old := ddb_mapping w !! (b, p) in
  let t := clock w (ticks w) in
  if writes old e
  then mapping_written (MappingUpdateItem b p (upserted old e t))
                       (insert (b, p) (upserted old e t)) (tick w)
  else tick w.

(** The desired state of a prefix, as the update writes it. *)
Definition desired (e : mapping_entry) (r : mapping_item) : Prop :=
  kms_key_arn r = entry_kms_key_arn e /\
  dual_layer_encryption r = String.eqb (entry_dual_layer_encryption e) "true".

End DdbCustomResource.

(** ** The log table over a run *)

(** From [w] to [w'] no entry of the log table is removed, and an entry is
    as it was unless the clock shows its timestamp again. *)
Definition log_extends (w w' : world) : Prop :=
  (forall key, is_Some (ddb_log w !! key) -> is_Some (ddb_log w' !! key)) /\
  (forall key e, ddb_log w !! key = Some e ->
                 (forall n, ticks w <= n -> clock w n <> key.2) ->
                 ddb_log w' !! key = Some e).

(** A computation that leaves the log table as it is. *)
Definition keeps_log {A} (m : M A) : Prop :=
  forall w, ddb_log (m w).1 = ddb_log w.

(** From [w] to [w'] time went on, and the log table was extended. *)
Definition advances (w w' : world) : Prop :=
  clock w' = clock w /\ ticks w <= ticks w' /\ log_extends w w'.

(** ** The reach of the custom resource *)

(** A write to the mapping table under the partition key [b]. *)
Definition call_on_bucket (b : string) (c : api_call) : Prop :=
  match c with
  | MappingPutItem b' _ _ | MappingUpdateItem b' _ _ | MappingDeleteItem b' _ => b' = b
  | _ => False
  end.

(** A computation whose requests are writes to the mapping table under
    the partition key [b], and that leaves S3, the log table and the items
    of the other partition keys as they are. *)
Definition confined {A} (b : string) (m : M A) : Prop :=
  forall w,
    s3_objects (m w).1 = s3_objects w /\
    ddb_log (m w).1 = ddb_log w /\
    (forall key, key.1 <> b -> ddb_mapping (m w).1 !! key = ddb_mapping w !! key) /\
    exists cs, calls (m w).1 = calls w ++ cs /\ Forall (call_on_bucket b) cs.

(** ** Example data *)

Module Examples.
Import FixEncryption S3Encrypt DdbCustomResource.

Definition ts0 : string := "2024-01-01 00:00:00:000000+0000".

Definition policy (k : string) (dual : bool) : mapping_item :=
  {| kms_key_arn := k; dual_layer_encryption := dual;
     insert_ts := ts0; last_update_ts := ts0 |}.

(** The table of the longest-prefix example: three nested prefixes of one
    bucket, and a prefix of another bucket. *)
Definition nested_table : gmap (string * string) mapping_item :=
  <[("bkt", "a/") := policy "key-a" false]>
  (<[("bkt", "a/b/") := policy "key-ab" true]>
  (<[("bkt", "a/b/c") := policy "key-abc" false]>
  (<[("other", "z/") := policy "key-z" false]> ∅))).

(** A clock with distinct readings, and the ids S3 hands out. *)
Definition clock0 (n : nat) : string :=
  nth n ["2024-06-01 10:00:00:000001+0000"; "2024-06-01 10:00:00:000002+0000";
         "2024-06-01 10:00:00:000003+0000"; "2024-06-01 10:00:00:000004+0000";
         "2024-06-01 10:00:00:000005+0000"; "2024-06-01 10:00:00:000006+0000"]
        "2024-06-01 10:00:01:000000+0000".

Definition version_ids0 (n : nat) : string := nth n ["v2"; "v3"; "v4"] "v9".

(** The table of the example with what the resolver does not look at: other
    timestamps, a record of the bucket that is no prefix of a/b/cde, and
    one more record of the other bucket. *)
Definition busy_table : gmap (string * string) mapping_item :=
  <[("bkt", "a/") := MappingItem "key-a" false "2023-01-01 00:00:00:000000+0000" ts0]>
  (<[("bkt", "a/c/") := policy "key-ac" true]>
  (<[("other", "a/b/cd") := policy "key-o" true]> nested_table)).

(** A bucket with versioning: [a/x] was uploaded with the default
    encryption, [a/b/y] with the key and the type of its prefix; [z/file] is
    under no stored prefix. *)
Definition versioned_world : world :=
  {| s3_objects :=
       <[("bkt", "a/x") := [S3Version "v1" "AES256" None "hello"]]>
       (<[("bkt", "a/b/y") := [S3Version "w1" "aws:kms:dsse" (Some "key-ab") "bytes"]]>
       (<[("bkt", "z/file") := [S3Version "u1" "AES256" None "free"]]> ∅));
     ddb_mapping := nested_table;
     ddb_log := ∅;
     clock := clock0; ticks := 0;
     version_ids := version_ids0; copies := 0;
     calls := [] |}.

(** The same bucket under a clock that gives one reading again and again. *)
Definition stopped_clock_world : world :=
  {| s3_objects := s3_objects versioned_world;
     ddb_mapping := nested_table;
     ddb_log := ∅;
     clock := fun _ => ts0; ticks := 0;
     version_ids := version_ids0; copies := 0;
     calls := [] |}.

(** A batch of three messages: the object of the first complies, the
    object of the second is not in the bucket any more, the object of the
    third is under no stored prefix. *)
Definition batch_of_three : list sqs_message :=
  [ SqsMessage "id-1" (Some [S3Record "bkt" "a/b/y" (Some "w1")]);
    SqsMessage "id-2" (Some [S3Record "bkt" "a/gone" None]);
    SqsMessage "id-3" (Some [S3Record "bkt" "z/file" None]) ].

(** The test event S3 sends when the notifications of a bucket are set. *)
Definition test_event : sqs_message := SqsMessage "id-0" None.

(** The mapping table of the minimal-diff example: p1 and p2 of the
    bucket, and a prefix of another bucket. *)
Definition reconcile_world : world :=
  {| s3_objects := ∅;
     ddb_mapping :=
       <[("bkt", "p1") := policy "k1" false]>
       (<[("bkt", "p2") := policy "k2" false]>
       (<[("other", "p2") := policy "k9" true]> ∅));
     ddb_log := ∅;
     clock := clock0; ticks := 0;
     version_ids := version_ids0; copies := 0;
     calls := [] |}.

Definition update_event (mapping_data : mapping_data_t) : event_t :=
  {| RequestType := "Update";
     PhysicalResourceId := Some "CRToManageMappingForBucketbkt";
     props := {| MappingData := mapping_data;
                 TableName := "mapping-table";
                 BucketName := "bkt" |} |}.

(** Desired: p1 as it is, p3 new, p2 gone. *)
Definition minimal_diff : mapping_data_t :=
  [("p1", MappingEntry "k1" "false"); ("p3", MappingEntry "k3" "true")].

Definition create_event (mapping_data : mapping_data_t) : event_t :=
  {| RequestType := "Create";
     PhysicalResourceId := None;
     props := {| MappingData := mapping_data;
                 TableName := "mapping-table";
                 BucketName := "bkt" |} |}.

Definition delete_event : event_t :=
  {| RequestType := "Delete";
     PhysicalResourceId := Some "CRToManageMappingForBucketbkt";
     props := {| MappingData := [];
                 TableName := "mapping-table";
                 BucketName := "bkt" |} |}.

(** Desired: p1 with another key, p2 as it is. *)
Definition new_key : mapping_data_t :=
  [("p1", MappingEntry "k1b" "false"); ("p2", MappingEntry "k2" "false")].

End Examples.

(** * Properties *)

(** ** The order on strings and [startswith] *)

Module StrOrdFacts.
Import StrOrd.

Lemma ascii_compare_refl (a : ascii) : Ascii.compare a a = Eq.
Proof. unfold Ascii.compare. apply N.compare_refl. Qed.

Lemma ascii_compare_lt_trans (a b c : ascii) :
  Ascii.compare a b = Lt -> Ascii.compare b c = Lt -> Ascii.compare a c = Lt.
Proof.
  unfold Ascii.compare. rewrite !N.compare_lt_iff. apply N.lt_trans.
Qed.

Lemma compare_refl (s : string) : String.compare s s = Eq.
Proof.
  induction s as [|a s IH]; simpl; [reflexivity|].
  now rewrite ascii_compare_refl.
Qed.

Lemma compare_lt_trans (s1 : string) :
  forall s2 s3, String.compare s1 s2 = Lt -> String.compare s2 s3 = Lt ->
                String.compare s1 s3 = Lt.
Proof.
  induction s1 as [|a s1 IH]; intros [|b s2] [|c s3]; simpl; try congruence.
  destruct (Ascii.compare a b) eqn:Hab; try discriminate;
    destruct (Ascii.compare b c) eqn:Hbc; try discriminate; intros H12 H23.
  - apply Ascii.compare_eq_iff in Hab, Hbc. subst.
    rewrite ascii_compare_refl. eauto.
  - apply Ascii.compare_eq_iff in Hab. subst. now rewrite Hbc.
  - apply Ascii.compare_eq_iff in Hbc. subst. now rewrite Hab.
  - now rewrite (ascii_compare_lt_trans _ _ _ Hab Hbc).
Qed.

Lemma le_refl (s : string) : le s s.
Proof. unfold le, String.leb. now rewrite compare_refl. Qed.

Lemma le_lt_or_eq (s1 s2 : string) :
  le s1 s2 <-> String.compare s1 s2 = Lt \/ s1 = s2.
Proof.
  unfold le, String.leb. split.
  - destruct (String.compare s1 s2) eqn:Hc; try discriminate; intros _.
    + right. now apply String.compare_eq_iff.
    + now left.
  - intros [->| ->]; [reflexivity|]. now rewrite compare_refl.
Qed.

Lemma le_trans (s1 s2 s3 : string) : le s1 s2 -> le s2 s3 -> le s1 s3.
Proof.
  rewrite !le_lt_or_eq. intros [H12| ->] [H23| ->]; eauto using compare_lt_trans.
Qed.

Lemma le_antisym (s1 s2 : string) : le s1 s2 -> le s2 s1 -> s1 = s2.
Proof. apply String.leb_antisym. Qed.

Lemma le_total (s1 s2 : string) : le s1 s2 \/ le s2 s1.
Proof. apply String.leb_total. Qed.

Lemma app_cons (a : ascii) (s r : string) : String a s +:+ r = String a (s +:+ r).
Proof. reflexivity. Qed.

Lemma startswith_app (s p : string) :
  startswith s p = true <-> exists r, s = p +:+ r.
Proof.
  unfold startswith. revert s. induction p as [|a p IH]; intros s; simpl.
  - destruct s; split; eauto.
  - destruct s as [|b s]; simpl.
    + split; [discriminate|]. intros [r Hr]. rewrite app_cons in Hr. discriminate.
    + destruct (ascii_dec a b) as [->|Hne].
      * rewrite IH. split; intros [r Hr]; exists r;
          rewrite app_cons in *; congruence.
      * split; [discriminate|]. intros [r Hr]. rewrite app_cons in Hr. congruence.
Qed.

Lemma startswith_le (s p : string) : startswith s p = true -> le p s.
Proof.
  rewrite startswith_app. intros [r ->]. unfold le, String.leb.
  induction p as [|a p IH].
  - now destruct r.
  - rewrite app_cons. simpl. now rewrite ascii_compare_refl.
Qed.

Lemma length_app (s1 s2 : string) :
  String.length (s1 +:+ s2) = String.length s1 + String.length s2.
Proof. induction s1; [reflexivity|]. rewrite app_cons. simpl. congruence. Qed.

(** Two prefixes of one string are comparable, and the longer one starts
    with the shorter one. *)
Lemma startswith_both (s : string) :
  forall p q, startswith s p = true -> startswith s q = true ->
              String.length q <= String.length p -> startswith p q = true.
Proof.
  unfold startswith.
  induction s as [|c s IH]; intros [|a p] [|b q]; simpl; try easy.
  destruct (ascii_dec a c) as [->|]; [|discriminate].
  destruct (ascii_dec b c) as [->|]; [|discriminate].
  intros Hp Hq Hlen. destruct (ascii_dec c c); [|congruence].
  apply IH; [assumption..|lia].
Qed.

(** Among the prefixes of one string the byte-wise order is the order of
    the lengths. *)
Lemma startswith_le_length (s p q : string) :
  startswith s p = true -> startswith s q = true -> le q p ->
  String.length q <= String.length p.
Proof.
  intros Hp Hq Hle.
  destruct (le_lt_dec (String.length q) (String.length p)) as [|Hlt]; [assumption|].
  assert (Hpq : startswith q p = true) by (apply (startswith_both s); [done..|lia]).
  apply startswith_le in Hpq.
  assert (q = p) by now apply le_antisym. subst. lia.
Qed.

#[global] Instance le_trans_inst : Transitive le.
Proof. intros x y z. apply le_trans. Qed.

#[global] Instance le_total_inst : Total le.
Proof. intros x y. apply le_total. Qed.

End StrOrdFacts.

(** ** The policy resolver *)

Module ResolverFacts.
Import StrOrd StrOrdFacts FixEncryption.

#[global] Instance prefix_desc_trans : Transitive prefix_desc.
Proof. intros x y z Hxy Hyz. unfold prefix_desc in *. by etrans. Qed.

#[global] Instance prefix_desc_total : Total prefix_desc.
Proof. intros x y. unfold prefix_desc. destruct (le_total x.1 y.1); auto. Qed.

(** What the query returns: the items of the bucket at or below the
    object name. *)
Lemma elem_of_query_prefix_le (t : gmap (string * string) mapping_item)
    (b o p : string) (r : mapping_item) :
  (p, r) ∈ query_prefix_le t b o <-> t !! (b, p) = Some r /\ le p o.
Proof.
  unfold query_prefix_le. rewrite merge_sort_Permutation, list_elem_of_fmap.
  split.
  - intros [[[b' p'] r'] [Heq Hin]]. simpl in Heq. injection Heq as -> ->.
    apply list_elem_of_filter in Hin as [[Hb Hle] Hin]. simpl in *. subst b'.
    by apply elem_of_map_to_list in Hin.
  - intros [Hl Hle]. exists (b, p, r). split; [done|].
    apply list_elem_of_filter. split; [done|]. by apply elem_of_map_to_list.
Qed.

Lemma query_prefix_le_sorted (t : gmap (string * string) mapping_item) (b o : string) :
  StronglySorted prefix_desc (query_prefix_le t b o).
Proof. apply StronglySorted_merge_sort; apply _. Qed.

(** The loop returns the first item the object name starts with. *)
Lemma first_match_Some (o : string) (l : list (string * mapping_item)) info :
  first_match o l = Some info ->
  exists l1 p r l2, l = l1 ++ (p, r) :: l2 /\
                    Forall (fun x => startswith o x.1 = false) l1 /\
                    startswith o p = true /\ info = info_of r.
Proof.
  induction l as [|[q r'] l IH]; simpl; [discriminate|].
  destruct (startswith o q) eqn:Hq.
  - intros [= <-]. by exists [], q, r', l.
  - intros (l1 & p & r & l2 & -> & Hall & Hp & ->)%IH.
    exists ((q, r') :: l1), p, r, l2. split_and!; [done| |done..].
    by constructor.
Qed.

Lemma first_match_None (o : string) (l : list (string * mapping_item)) :
  first_match o l = None -> Forall (fun x => startswith o x.1 = false) l.
Proof.
  induction l as [|[q r'] l IH]; simpl; [constructor|].
  destruct (startswith o q) eqn:Hq; [discriminate|].
  intros H. constructor; auto.
Qed.

(** Two longest stored prefixes are one. *)
Lemma longest_stored_prefix_unique (t : gmap (string * string) mapping_item)
    (b o p p' : string) (r r' : mapping_item) :
  longest_stored_prefix t b o p r -> longest_stored_prefix t b o p' r' ->
  p = p' /\ r = r'.
Proof.
  intros (Hl & Hs & Hmax) (Hl' & Hs' & Hmax').
  assert (p = p') as <-.
  { apply le_antisym; apply startswith_le.
    - apply (startswith_both o); eauto.
    - apply (startswith_both o); eauto. }
  split; congruence.
Qed.

(** The result of the resolver, in the words of the spec. *)
Lemma resolver_cases (t : gmap (string * string) mapping_item) (b o : string) :
  match get_kms_key_info_for_s3_prefix t b o with
  | Some info =>
      exists p r l1 l2,
        longest_stored_prefix t b o p r /\ info = info_of r /\
        query_prefix_le t b o = l1 ++ (p, r) :: l2 /\
        Forall (fun x => startswith o x.1 = false) l1
  | None => forall p r, t !! (b, p) = Some r -> startswith o p = false
  end.
Proof.
  unfold get_kms_key_info_for_s3_prefix.
  pose proof (query_prefix_le_sorted t b o) as Hsorted.
  destruct (first_match o (query_prefix_le t b o)) as [info|] eqn:Hfm.
  - apply first_match_Some in Hfm as (l1 & p & r & l2 & Hsplit & Hall & Hp & ->).
    assert (Hin : (p, r) ∈ query_prefix_le t b o).
    { rewrite Hsplit, elem_of_app, elem_of_cons. auto. }
    apply elem_of_query_prefix_le in Hin as [Hl Hle].
    exists p, r, l1, l2. split_and!; [|done..]. split_and!; [done..|].
    intros q r' Hq Hsq. apply (startswith_le_length o); [done..|].
    assert (Hqin : (q, r') ∈ query_prefix_le t b o).
    { apply elem_of_query_prefix_le. split; [done|by apply startswith_le]. }
    rewrite Hsplit in Hqin, Hsorted.
    apply elem_of_app in Hqin as [Hq1|Hq2].
    + rewrite Forall_forall in Hall. apply Hall in Hq1. simpl in Hq1. congruence.
    + apply elem_of_cons in Hq2 as [[= -> ->]|Hq2]; [apply le_refl|].
      apply StronglySorted_app_1_r, StronglySorted_cons in Hsorted as [Hhd _].
      rewrite Forall_forall in Hhd. by apply (Hhd _ Hq2).
  - apply first_match_None in Hfm. rewrite Forall_forall in Hfm.
    intros p r Hl. destruct (startswith o p) eqn:Hp; [|done].
    assert (Hin : (p, r) ∈ query_prefix_le t b o).
    { apply elem_of_query_prefix_le. split; [done|by apply startswith_le]. }
    apply Hfm in Hin. simpl in Hin. congruence.
Qed.

Lemma resolver_Some (t : gmap (string * string) mapping_item) (b o p : string) r :
  longest_stored_prefix t b o p r ->
  get_kms_key_info_for_s3_prefix t b o = Some (info_of r).
Proof.
  intros Hlong. pose proof (resolver_cases t b o) as Hc.
  destruct (get_kms_key_info_for_s3_prefix t b o) as [info|].
  - destruct Hc as (p' & r' & _ & _ & Hlong' & -> & _).
    by destruct (longest_stored_prefix_unique _ _ _ _ _ _ _ Hlong Hlong') as [_ ->].
  - destruct Hlong as (Hl & Hs & _). apply Hc in Hl. congruence.
Qed.

Lemma resolver_None (t : gmap (string * string) mapping_item) (b o : string) :
  (forall p r, t !! (b, p) = Some r -> startswith o p = false) ->
  get_kms_key_info_for_s3_prefix t b o = None.
Proof.
  intros Hnone. pose proof (resolver_cases t b o) as Hc.
  destruct (get_kms_key_info_for_s3_prefix t b o) as [info|]; [|done].
  destruct Hc as (p & r & _ & _ & (Hl & Hs & _) & _). apply Hnone in Hl. congruence.
Qed.

(** The longest stored prefix, checked on the items of the table. *)
Lemma longest_stored_prefix_by_check (t : gmap (string * string) mapping_item)
    (b o p : string) (r : mapping_item) :
  t !! (b, p) = Some r ->
  startswith o p = true ->
  forallb (fun kv : string * string * mapping_item =>
             negb (String.eqb kv.1.1 b && startswith o kv.1.2)
             || Nat.leb (String.length kv.1.2) (String.length p))
          (map_to_list t) = true ->
  longest_stored_prefix t b o p r.
Proof.
  intros Hl Hs Hall. split_and!; [done..|]. intros q r' Hq Hsq.
  rewrite forallb_forall in Hall.
  apply elem_of_map_to_list, list_elem_of_In, Hall in Hq. simpl in Hq.
  rewrite String.eqb_refl, Hsq in Hq. simpl in Hq. by apply Nat.leb_le.
Qed.

End ResolverFacts.

Import StrOrd StrOrdFacts FixEncryption ResolverFacts.


(** ** Fields of a world after a request *)

Module WorldFacts.
Import FixEncryption.

Create Rewrite HintDb world.

Lemma s3_objects_tick (w : world) :
  s3_objects (tick w) = s3_objects w.
Proof. reflexivity. Qed.

Lemma ddb_mapping_tick (w : world) :
  ddb_mapping (tick w) = ddb_mapping w.
Proof. reflexivity. Qed.

Lemma ddb_log_tick (w : world) :
  ddb_log (tick w) = ddb_log w.
Proof. reflexivity. Qed.

Lemma clock_tick (w : world) :
  clock (tick w) = clock w.
Proof. reflexivity. Qed.

Lemma ticks_tick (w : world) :
  ticks (tick w) = S (ticks w).
Proof. reflexivity. Qed.

Lemma version_ids_tick (w : world) :
  version_ids (tick w) = version_ids w.
Proof. reflexivity. Qed.

Lemma copies_tick (w : world) :
  copies (tick w) = copies w.
Proof. reflexivity. Qed.

Lemma calls_tick (w : world) :
  calls (tick w) = calls w.
Proof. reflexivity. Qed.

Lemma s3_objects_logged (path ts : string) (it : log_item) (w : world) :
  s3_objects (logged path ts it w) = s3_objects w.
Proof. reflexivity. Qed.

Lemma ddb_mapping_logged (path ts : string) (it : log_item) (w : world) :
  ddb_mapping (logged path ts it w) = ddb_mapping w.
Proof. reflexivity. Qed.

Lemma ddb_log_logged (path ts : string) (it : log_item) (w : world) :
  ddb_log (logged path ts it w) = <[(path, ts) := it]> (ddb_log w).
Proof. reflexivity. Qed.

Lemma clock_logged (path ts : string) (it : log_item) (w : world) :
  clock (logged path ts it w) = clock w.
Proof. reflexivity. Qed.

Lemma ticks_logged (path ts : string) (it : log_item) (w : world) :
  ticks (logged path ts it w) = ticks w.
Proof. reflexivity. Qed.

Lemma version_ids_logged (path ts : string) (it : log_item) (w : world) :
  version_ids (logged path ts it w) = version_ids w.
Proof. reflexivity. Qed.

Lemma copies_logged (path ts : string) (it : log_item) (w : world) :
  copies (logged path ts it w) = copies w.
Proof. reflexivity. Qed.

Lemma calls_logged (path ts : string) (it : log_item) (w : world) :
  calls (logged path ts it w) = calls w ++ [LogPutItem path ts it].
Proof. reflexivity. Qed.

Lemma s3_objects_deleted (b k v : string) (w : world) :
  s3_objects (deleted b k v w) = alter (remove_version v) (b, k) (s3_objects w).
Proof. reflexivity. Qed.

Lemma ddb_mapping_deleted (b k v : string) (w : world) :
  ddb_mapping (deleted b k v w) = ddb_mapping w.
Proof. reflexivity. Qed.

Lemma ddb_log_deleted (b k v : string) (w : world) :
  ddb_log (deleted b k v w) = ddb_log w.
Proof. reflexivity. Qed.

Lemma clock_deleted (b k v : string) (w : world) :
  clock (deleted b k v w) = clock w.
Proof. reflexivity. Qed.

Lemma ticks_deleted (b k v : string) (w : world) :
  ticks (deleted b k v w) = ticks w.
Proof. reflexivity. Qed.

Lemma version_ids_deleted (b k v : string) (w : world) :
  version_ids (deleted b k v w) = version_ids w.
Proof. reflexivity. Qed.

Lemma copies_deleted (b k v : string) (w : world) :
  copies (deleted b k v w) = copies w.
Proof. reflexivity. Qed.

Lemma calls_deleted (b k v : string) (w : world) :
  calls (deleted b k v w) = calls w ++ [S3DeleteObject b k v].
Proof. reflexivity. Qed.

Lemma s3_objects_stored_copy (b k : string) (src : s3_version) (nv kms sse : string) (c : api_call) (w : world) :
  s3_objects (stored_copy b k src nv kms sse c w) = <[(b, k) := put_version (S3Version nv sse (Some kms) (body src)) (default [] (s3_objects w !! (b, k)))]> (s3_objects w).
Proof. reflexivity. Qed.

Lemma ddb_mapping_stored_copy (b k : string) (src : s3_version) (nv kms sse : string) (c : api_call) (w : world) :
  ddb_mapping (stored_copy b k src nv kms sse c w) = ddb_mapping w.
Proof. reflexivity. Qed.

Lemma ddb_log_stored_copy (b k : string) (src : s3_version) (nv kms sse : string) (c : api_call) (w : world) :
  ddb_log (stored_copy b k src nv kms sse c w) = ddb_log w.
Proof. reflexivity. Qed.

Lemma clock_stored_copy (b k : string) (src : s3_version) (nv kms sse : string) (c : api_call) (w : world) :
  clock (stored_copy b k src nv kms sse c w) = clock w.
Proof. reflexivity. Qed.

Lemma ticks_stored_copy (b k : string) (src : s3_version) (nv kms sse : string) (c : api_call) (w : world) :
  ticks (stored_copy b k src nv kms sse c w) = ticks w.
Proof. reflexivity. Qed.

Lemma version_ids_stored_copy (b k : string) (src : s3_version) (nv kms sse : string) (c : api_call) (w : world) :
  version_ids (stored_copy b k src nv kms sse c w) = version_ids w.
Proof. reflexivity. Qed.

Lemma copies_stored_copy (b k : string) (src : s3_version) (nv kms sse : string) (c : api_call) (w : world) :
  copies (stored_copy b k src nv kms sse c w) = S (copies w).
Proof. reflexivity. Qed.

Lemma calls_stored_copy (b k : string) (src : s3_version) (nv kms sse : string) (c : api_call) (w : world) :
  calls (stored_copy b k src nv kms sse c w) = calls w ++ [c].
Proof. reflexivity. Qed.

#[global] Hint Rewrite
  s3_objects_tick ddb_mapping_tick ddb_log_tick clock_tick
  ticks_tick version_ids_tick copies_tick calls_tick
  s3_objects_logged ddb_mapping_logged ddb_log_logged clock_logged
  ticks_logged version_ids_logged copies_logged calls_logged
  s3_objects_deleted ddb_mapping_deleted ddb_log_deleted clock_deleted
  ticks_deleted version_ids_deleted copies_deleted calls_deleted
  s3_objects_stored_copy ddb_mapping_stored_copy ddb_log_stored_copy clock_stored_copy
  ticks_stored_copy version_ids_stored_copy copies_stored_copy calls_stored_copy : world.

Lemma s3_objects_mapping_written (c : api_call) f (w : world) :
  s3_objects (DdbCustomResource.mapping_written c f w) = s3_objects w.
Proof. reflexivity. Qed.

Lemma ddb_mapping_mapping_written (c : api_call) f (w : world) :
  ddb_mapping (DdbCustomResource.mapping_written c f w) = f (ddb_mapping w).
Proof. reflexivity. Qed.

Lemma ddb_log_mapping_written (c : api_call) f (w : world) :
  ddb_log (DdbCustomResource.mapping_written c f w) = ddb_log w.
Proof. reflexivity. Qed.

Lemma clock_mapping_written (c : api_call) f (w : world) :
  clock (DdbCustomResource.mapping_written c f w) = clock w.
Proof. reflexivity. Qed.

Lemma ticks_mapping_written (c : api_call) f (w : world) :
  ticks (DdbCustomResource.mapping_written c f w) = ticks w.
Proof. reflexivity. Qed.

Lemma version_ids_mapping_written (c : api_call) f (w : world) :
  version_ids (DdbCustomResource.mapping_written c f w) = version_ids w.
Proof. reflexivity. Qed.

Lemma copies_mapping_written (c : api_call) f (w : world) :
  copies (DdbCustomResource.mapping_written c f w) = copies w.
Proof. reflexivity. Qed.

Lemma calls_mapping_written (c : api_call) f (w : world) :
  calls (DdbCustomResource.mapping_written c f w) = calls w ++ [c].
Proof. reflexivity. Qed.

#[global] Hint Rewrite
  s3_objects_mapping_written ddb_mapping_mapping_written ddb_log_mapping_written clock_mapping_written
  ticks_mapping_written version_ids_mapping_written copies_mapping_written calls_mapping_written : world.

End WorldFacts.

(** ** The remediation of one object *)

Module RemediationFacts.
Import FixEncryption.

Ltac simpl_info :=
  change (info_kms_key_arn (info_of ?r)) with (kms_key_arn r) in *;
  change (info_dual_layer_encryption (info_of ?r)) with (dual_layer_encryption r) in *.

Lemma log_action_into_ddb_run path cs ck ns nk a r nv (w : world) :
  log_action_into_ddb path cs ck ns nk a r nv w =
  (logged path (clock w (ticks w)) (log_entry cs ck ns nk a r nv) (tick w), inr tt).
Proof. reflexivity. Qed.

(** The first step: one read of S3, which changes nothing. *)
Lemma observe_run (b k : string) (vid : option string) (w : world) :
  (if truthy vid then get_object b k (Some (fmt vid)) else get_object b k None) w =
  (w, lookup_object (s3_objects w) b k (requested vid)).
Proof. unfold requested. by destruct (truthy vid). Qed.

Lemma fix_raises (b k : string) (vid : option string) (w : world) (e : exn) :
  lookup_object (s3_objects w) b k (requested vid) = inl e ->
  fix_encryption_if_incorrect b k vid w = (w, inl e).
Proof.
  intros Hget. unfold fix_encryption_if_incorrect, bind at 1.
  by rewrite observe_run, Hget.
Qed.

Lemma fix_not_configured (b k : string) (vid : option string) (w : world) o :
  lookup_object (s3_objects w) b k (requested vid) = inr o ->
  get_kms_key_info_for_s3_prefix (ddb_mapping w) b k = None ->
  fix_encryption_if_incorrect b k vid w =
  (logged (object_path b k vid) (clock w (ticks w))
     (log_entry (sse_type o) (sse_kms_key_id o) "None" "None"
                ACTION_NONE REASON_NOT_CONFIGURED None) (tick w), inr tt).
Proof.
  intros Hget Hres. unfold fix_encryption_if_incorrect, bind at 1.
  rewrite observe_run, Hget. unfold bind at 1, gets. by rewrite Hres.
Qed.

Lemma fix_compliant (b k : string) (vid : option string) (w : world) o r :
  lookup_object (s3_objects w) b k (requested vid) = inr o ->
  get_kms_key_info_for_s3_prefix (ddb_mapping w) b k = Some (info_of r) ->
  compliant o r = true ->
  fix_encryption_if_incorrect b k vid w =
  (logged (object_path b k vid) (clock w (ticks w))
     (log_entry (sse_type o) (sse_kms_key_id o)
                (sse_type_of (dual_layer_encryption r)) (kms_key_arn r)
                ACTION_NONE REASON_CORRECT None) (tick w), inr tt).
Proof.
  intros Hget Hres Hc. unfold fix_encryption_if_incorrect, bind at 1.
  rewrite observe_run, Hget. unfold bind at 1, gets. rewrite Hres. simpl.
  unfold compliant in Hc. by rewrite Hc.
Qed.

Lemma action_reason_run (o : s3_version) (r : mapping_item) (w : world) :
  compliant o r = false ->
  (if negb (String.eqb (sse_type o) (sse_type_of (dual_layer_encryption r)))
   then ret (reason_sse (sse_type o) (sse_type_of (dual_layer_encryption r)))
   else if negb (key_matches (sse_kms_key_id o) (kms_key_arn r))
   then ret (reason_key (sse_kms_key_id o) (kms_key_arn r))
   else raise (UnboundLocalError "action_reason")) w =
  (w, inr (mismatch_reason o r)).
Proof.
  unfold compliant, mismatch_reason.
  destruct (String.eqb _ _); simpl; [|done]. by intros ->.
Qed.

(** The rewrite of a version: copy, log, delete, log. *)
Lemma fix_versioned (b k v : string) (w : world) o r :
  truthy (Some v) = true ->
  lookup_object (s3_objects w) b k (Some v) = inr o ->
  get_kms_key_info_for_s3_prefix (ddb_mapping w) b k = Some (info_of r) ->
  compliant o r = false ->
  let path := object_path b k (Some v) in
  let new_sse := sse_type_of (dual_layer_encryption r) in
  let nv := version_ids w (copies w) in
  let w1 := stored_copy b k o nv (kms_key_arn r) new_sse
              (S3CopyObject b k v new_sse (kms_key_arn r)) w in
  let w2 := logged path (clock w (ticks w))
              (log_entry (sse_type o) (sse_kms_key_id o) new_sse (kms_key_arn r)
                         ACTION_COPY (mismatch_reason o r) (Some nv)) (tick w1) in
  let w3 := deleted b k v w2 in
  let w4 := logged path (clock w (S (ticks w)))
              (log_entry (sse_type o) (sse_kms_key_id o) "N/A" "N/A"
                         ACTION_DELETE "N/A" None) (tick w3) in
  fix_encryption_if_incorrect b k (Some v) w = (w4, inr tt).
Proof.
  intros Hv Hget Hres Hc. simpl.
  unfold fix_encryption_if_incorrect, bind at 1.
  rewrite observe_run. unfold requested. rewrite Hv. simpl fmt. rewrite Hget.
  unfold bind at 1, gets. rewrite Hres. simpl_info.
  change (String.eqb (sse_type o) (sse_type_of (dual_layer_encryption r))
          && key_matches (sse_kms_key_id o) (kms_key_arn r)) with (compliant o r).
  rewrite Hc. unfold bind at 1. rewrite (action_reason_run _ _ _ Hc).
  unfold copy_object, copy_onto_itself, bind, get_object, gets, modify, ret.
  by rewrite Hget.
Qed.

(** The rewrite of an object without a version: copy, log. *)
Lemma fix_unversioned (b k : string) (vid : option string) (w : world) o r :
  truthy vid = false ->
  lookup_object (s3_objects w) b k None = inr o ->
  get_kms_key_info_for_s3_prefix (ddb_mapping w) b k = Some (info_of r) ->
  compliant o r = false ->
  let new_sse := sse_type_of (dual_layer_encryption r) in
  let nv := version_ids w (copies w) in
  let w1 := stored_copy b k o nv (kms_key_arn r) new_sse
              (S3Copy b k new_sse (kms_key_arn r)) w in
  fix_encryption_if_incorrect b k vid w =
  (logged (object_path b k vid) (clock w (ticks w))
     (log_entry (sse_type o) (sse_kms_key_id o) new_sse (kms_key_arn r)
                ACTION_COPY (mismatch_reason o r) None) (tick w1), inr tt).
Proof.
  intros Hv Hget Hres Hc. simpl.
  unfold fix_encryption_if_incorrect, bind at 1.
  rewrite observe_run. unfold requested. rewrite Hv. rewrite Hget.
  unfold bind at 1, gets. rewrite Hres. simpl_info.
  change (String.eqb (sse_type o) (sse_type_of (dual_layer_encryption r))
          && key_matches (sse_kms_key_id o) (kms_key_arn r)) with (compliant o r).
  rewrite Hc. unfold bind at 1. rewrite (action_reason_run _ _ _ Hc).
  unfold copy, copy_onto_itself, bind, get_object, gets, modify, ret.
  by rewrite Hget.
Qed.

End RemediationFacts.

(** ** Versions of an object *)

Module VersionFacts.
Import FixEncryption.

Lemma find_version_remove (u v : string) (vs : list s3_version) :
  find_version (remove_version u vs) v =
  if String.eqb u v then None else find_version vs v.
Proof.
  unfold find_version, remove_version.
  induction vs as [|x vs IH]; simpl; [by destruct (String.eqb u v)|].
  destruct (String.eqb (version_id x) u) eqn:Hxu; simpl.
  - apply String.eqb_eq in Hxu. subst u. rewrite IH.
    by destruct (String.eqb (version_id x) v).
  - destruct (String.eqb (version_id x) v) eqn:Hxv; [|done].
    apply String.eqb_eq in Hxv. subst v. by rewrite String.eqb_sym, Hxu.
Qed.

Lemma eqb_neq_false (u v : string) : u <> v -> String.eqb u v = false.
Proof. by intros ?%String.eqb_neq. Qed.

Lemma lookup_object_Some_inv s (b k : string) version o :
  lookup_object s b k version = inr o -> exists vs, s !! (b, k) = Some vs.
Proof. unfold lookup_object. destruct (s !! (b, k)); [eauto|discriminate]. Qed.

Lemma truthy_Some (v : string) : v <> "" -> truthy (Some v) = true.
Proof. intros Hv. simpl. by rewrite eqb_neq_false. Qed.

Lemma compliant_true (o : s3_version) (r : mapping_item) :
  compliant o r = true <->
  sse_type o = sse_type_of (dual_layer_encryption r) /\
  sse_kms_key_id o = Some (kms_key_arn r).
Proof.
  unfold compliant, key_matches. rewrite andb_true_iff, String.eqb_eq.
  destruct (sse_kms_key_id o) as [key|].
  - rewrite String.eqb_eq. split; intros [-> Hk]; split; congruence.
  - split; intros [_ Hk]; discriminate.
Qed.

Lemma compliant_false (o : s3_version) (r : mapping_item) :
  compliant o r = false <->
  ~ (sse_type o = sse_type_of (dual_layer_encryption r) /\
     sse_kms_key_id o = Some (kms_key_arn r)).
Proof. rewrite <- compliant_true. by destruct (compliant o r). Qed.

(** No path has two version suffixes. *)
Lemma same_path_same_suffix (path : string) : ~ distinct_version_suffixes path path.
Proof.
  intros (base & v1 & v2 & -> & Heq & Hne). apply Hne.
  by do 2 apply (inj (String.append _)) in Heq.
Qed.

End VersionFacts.

Import WorldFacts RemediationFacts VersionFacts.

(** C8. An object under no configured prefix: when the key of an object
    that S3 has starts with no stored prefix of its bucket, the remediation
    returns without an exception, makes no copy and no delete (the objects
    and the mapping table are as before), and its one request is the
    put of one log entry with action None and the reason that no KMS key is
    configured for the prefix of the object. *)
Theorem unconfigured_prefix_is_logged_not_raised
    (w : world) (bucket_name object_name : string) (version_id : option string)
    (o : s3_version) :
  lookup_object (s3_objects w) bucket_name object_name (requested version_id) = inr o ->
  (forall p r, ddb_mapping w !! (bucket_name, p) = Some r ->
               StrOrd.startswith object_name p = false) ->
  let run := fix_encryption_if_incorrect bucket_name object_name version_id w in
  let path := object_path bucket_name object_name version_id in
  let ts := clock w (ticks w) in
  let it := log_entry (sse_type o) (sse_kms_key_id o) "None" "None" "None"
              "No KMS key configured for this object's prefix" None in
  run.2 = inr tt /\
  s3_objects run.1 = s3_objects w /\
  ddb_mapping run.1 = ddb_mapping w /\
  calls run.1 = calls w ++ [LogPutItem path ts it] /\
  ddb_log run.1 = <[(path, ts) := it]> (ddb_log w) /\
  action_taken it = "None" /\
  action_reason it = "No KMS key configured for this object's prefix".
Proof.
  intros Hget Hnone. cbv zeta.
  rewrite (fix_not_configured _ _ _ _ _ Hget (resolver_None _ _ _ Hnone)).
  by split_and!.
Qed.

Lemma unconfigured_prefix_is_logged_not_raised_witness :
  let run := fix_encryption_if_incorrect "bkt" "z/file" None Examples.versioned_world in
  run.2 = inr tt /\
  s3_objects run.1 = s3_objects Examples.versioned_world /\
  calls run.1 =
    [LogPutItem "s3://bkt/z/file" "2024-06-01 10:00:00:000001+0000"
       (LogItem "AES256" "None" "None" "None" "None"
                "No KMS key configured for this object's prefix" None)].
Proof.
  destruct (unconfigured_prefix_is_logged_not_raised Examples.versioned_world
              "bkt" "z/file" None (S3Version "u1" "AES256" None "free"))
    as (Hret & Hs3 & _ & Hcalls & _).
  - vm_compute. reflexivity.
  - pose proof (resolver_cases Examples.nested_table "bkt" "z/file") as Hc.
    assert (Hn : get_kms_key_info_for_s3_prefix Examples.nested_table "bkt" "z/file"
                 = None) by (vm_compute; reflexivity).
    rewrite Hn in Hc. exact Hc.
  - split_and!; [exact Hret|exact Hs3|exact Hcalls].
Defined.

(** The function run again and again on an object that complies. *)
Lemma rerun_compliant (n : nat) (b k : string) (vid : option string) o r :
  compliant o r = true ->
  forall w : world,
    lookup_object (s3_objects w) b k (requested vid) = inr o ->
    get_kms_key_info_for_s3_prefix (ddb_mapping w) b k = Some (info_of r) ->
    let run := rerun n b k vid w in
    let it := log_entry (sse_type o) (sse_kms_key_id o)
                (sse_type_of (dual_layer_encryption r)) (kms_key_arn r)
                ACTION_NONE REASON_CORRECT None in
    run.2 = inr tt /\
    s3_objects run.1 = s3_objects w /\
    ddb_mapping run.1 = ddb_mapping w /\
    calls run.1 =
      calls w ++ ((fun i => LogPutItem (object_path b k vid) (clock w (ticks w + i)) it)
                  <$> seq 0 n).
Proof.
  intros Hc. induction n as [|n IH]; intros w Hget Hres; simpl.
  - split_and!; try done. by rewrite app_nil_r.
  - unfold bind. rewrite (fix_compliant _ _ _ _ _ _ Hget Hres Hc).
    match goal with |- context [rerun n b k vid ?w1] =>
      destruct (IH w1) as (Hret & Hs3 & Hmap & Hcalls); [done..|] end.
    simpl in Hret, Hs3, Hmap, Hcalls.
    split_and!; [done..|]. rewrite Hcalls. simpl.
    rewrite <- app_assoc. simpl. rewrite Nat.add_0_r. do 2 f_equal.
    rewrite <- fmap_S_seq, <- list_fmap_compose. apply list_fmap_ext.
    intros i x _. simpl. do 2 f_equal. lia.
Qed.

(** ** The rewrite of a version *)

Module RewriteFacts.
Import FixEncryption.

(** The versions of an object after a copy under the id of [new] and the
    removal of the version [v]. *)
Lemma lookup_after_replace (s : gmap (string * string) (list s3_version))
    (b k v : string) (vs : list s3_version) (new : s3_version) :
  s !! (b, k) = Some vs -> version_id new <> v ->
  let s' := alter (remove_version v) (b, k) (<[(b, k) := put_version new vs]> s) in
  lookup_object s' b k None = inr new /\
  lookup_object s' b k (Some (version_id new)) = inr new /\
  lookup_object s' b k (Some v) = inl NoSuchVersion /\
  (forall v', v' <> v -> v' <> version_id new ->
              lookup_object s' b k (Some v') = lookup_object s b k (Some v')) /\
  (forall key, key <> (b, k) -> s' !! key = s !! key).
Proof.
  intros Hs Hne s'.
  assert (Hs' : s' !! (b, k) =
                Some (new :: remove_version v (remove_version (version_id new) vs))).
  { unfold s'. rewrite lookup_alter_eq, lookup_insert_eq. simpl.
    by rewrite (eqb_neq_false _ _ Hne). }
  unfold lookup_object. rewrite Hs', Hs. split_and!.
  - done.
  - unfold find_version. simpl. by rewrite String.eqb_refl.
  - unfold find_version. simpl. rewrite (eqb_neq_false _ _ Hne).
    fold (find_version (remove_version v (remove_version (version_id new) vs)) v).
    by rewrite find_version_remove, String.eqb_refl.
  - intros v' Hv Hnew. unfold find_version at 1. simpl.
    rewrite (eqb_neq_false (version_id new) v') by done.
    fold (find_version (remove_version v (remove_version (version_id new) vs)) v').
    rewrite !find_version_remove.
    by rewrite (eqb_neq_false v v'), (eqb_neq_false (version_id new) v').
  - intros key Hkey. unfold s'. by rewrite lookup_alter_ne, lookup_insert_ne.
Qed.

End RewriteFacts.

Import RewriteFacts.

(** C3, as the code has it. Remediation of a version whose encryption is
    not the one of its record, when S3 names the copy with a non-empty id
    other than the id of the original: the run returns; the copy is the
    latest version of the object, with the encryption type and key of the
    record and the body of the original; the original version is gone,
    every other version and every other object is as before; the requests
    are the copy, the put of the rewrite entry with the id of the new
    version, the delete of the original version, and the put of the entry
    of the deletion. Both entries are put under one and the same object
    path, the path of the original version: no version suffix tells them
    apart, their keys differ in the timestamp alone. When the readings of
    the clock at the two puts differ, both entries are in the log table;
    when the readings are the same, the second put replaces the first and
    the table has the entry of the deletion alone under that key. *)
Theorem versioned_remediation_replaces_the_version
    (w : world) (bucket_name object_name v p : string)
    (o : s3_version) (r : mapping_item) :
  v <> "" ->
  lookup_object (s3_objects w) bucket_name object_name (Some v) = inr o ->
  longest_stored_prefix (ddb_mapping w) bucket_name object_name p r ->
  ~ (sse_type o = sse_type_of (dual_layer_encryption r) /\
     sse_kms_key_id o = Some (kms_key_arn r)) ->
  version_ids w (copies w) <> v ->
  version_ids w (copies w) <> "" ->
  let run := fix_encryption_if_incorrect bucket_name object_name (Some v) w in
  let nv := version_ids w (copies w) in
  let new_sse := sse_type_of (dual_layer_encryption r) in
  let new := {| version_id := nv; sse_type := new_sse;
                sse_kms_key_id := Some (kms_key_arn r); body := body o |} in
  let path := "s3://" +:+ bucket_name +:+ "/" +:+ object_name +:+ "?versionId=" +:+ v in
  let it1 := log_entry (sse_type o) (sse_kms_key_id o) new_sse (kms_key_arn r)
               "Initiated copy with the right key" (mismatch_reason o r) (Some nv) in
  let it2 := log_entry (sse_type o) (sse_kms_key_id o) "N/A" "N/A"
               "Deleted old version with incorrect encryption" "N/A" None in
  run.2 = inr tt /\
  lookup_object (s3_objects run.1) bucket_name object_name None = inr new /\
  lookup_object (s3_objects run.1) bucket_name object_name (Some nv) = inr new /\
  lookup_object (s3_objects run.1) bucket_name object_name (Some v) = inl NoSuchVersion /\
  (forall v', v' <> v -> v' <> nv ->
     lookup_object (s3_objects run.1) bucket_name object_name (Some v') =
     lookup_object (s3_objects w) bucket_name object_name (Some v')) /\
  (forall key, key <> (bucket_name, object_name) ->
     s3_objects run.1 !! key = s3_objects w !! key) /\
  calls run.1 =
    calls w ++ [S3CopyObject bucket_name object_name v new_sse (kms_key_arn r);
                LogPutItem path (clock w (ticks w)) it1;
                S3DeleteObject bucket_name object_name v;
                LogPutItem path (clock w (S (ticks w))) it2] /\
  ddb_log run.1 =
    <[(path, clock w (S (ticks w))) := it2]>
      (<[(path, clock w (ticks w)) := it1]> (ddb_log w)) /\
  (clock w (ticks w) <> clock w (S (ticks w)) ->
     ddb_log run.1 !! (path, clock w (ticks w)) = Some it1 /\
     ddb_log run.1 !! (path, clock w (S (ticks w))) = Some it2) /\
  (clock w (ticks w) = clock w (S (ticks w)) ->
     ddb_log run.1 !! (path, clock w (ticks w)) = Some it2) /\
  it1 <> it2 /\
  new_version_id it1 = Some nv /\
  ~ distinct_version_suffixes path path.
Proof.
  intros Hv Hget Hlong Hmis Hfresh Hnv. cbv zeta.
  apply compliant_false in Hmis.
  pose proof (resolver_Some _ _ _ _ _ Hlong) as Hres.
  pose proof (fix_versioned _ _ _ _ _ _ (truthy_Some _ Hv) Hget Hres Hmis) as Hrun.
  cbv zeta in Hrun. rewrite Hrun. clear Hrun. cbn [fst snd].
  destruct (lookup_object_Some_inv _ _ _ _ _ Hget) as [vs Hvs].
  assert (Hpath : object_path bucket_name object_name (Some v) =
                  "s3://" +:+ bucket_name +:+ "/" +:+ object_name +:+ "?versionId=" +:+ v).
  { unfold object_path. by rewrite (truthy_Some _ Hv). }
  rewrite Hpath. autorewrite with world. rewrite Hvs.
  change (default [] (Some vs)) with vs.
  match goal with |- context [put_version ?new vs] =>
    destruct (lookup_after_replace (s3_objects w) bucket_name object_name v vs
                new Hvs Hfresh)
      as (Hlatest & Hnew & Hold & Hothers & Hframe) end.
  split_and!.
  - reflexivity.
  - exact Hlatest.
  - exact Hnew.
  - exact Hold.
  - exact Hothers.
  - exact Hframe.
  - by rewrite <- !app_assoc.
  - reflexivity.
  - intros Hne. split; [|apply lookup_insert_eq].
    rewrite lookup_insert_ne by congruence. apply lookup_insert_eq.
  - intros Heq. rewrite Heq. apply lookup_insert_eq.
  - intros Heq. apply (f_equal action_taken) in Heq. discriminate Heq.
  - unfold log_entry. cbn [new_version_id]. by rewrite (truthy_Some _ Hnv).
  - apply same_path_same_suffix.
Qed.

Lemma versioned_remediation_replaces_the_version_witness :
  let run := fix_encryption_if_incorrect "bkt" "a/x" (Some "v1") Examples.versioned_world in
  run.2 = inr tt /\
  lookup_object (s3_objects run.1) "bkt" "a/x" None
    = inr (S3Version "v2" "aws:kms" (Some "key-a") "hello") /\
  lookup_object (s3_objects run.1) "bkt" "a/x" (Some "v1") = inl NoSuchVersion.
Proof.
  destruct (versioned_remediation_replaces_the_version Examples.versioned_world
              "bkt" "a/x" "v1" "a/" (S3Version "v1" "AES256" None "hello")
              (Examples.policy "key-a" false))
    as (Hret & Hlatest & _ & Hold & _).
  - discriminate.
  - vm_compute. reflexivity.
  - apply longest_stored_prefix_by_check; vm_compute; reflexivity.
  - simpl. intros [Hsse _]. discriminate Hsse.
  - vm_compute. discriminate.
  - vm_compute. discriminate.
  - split_and!; [exact Hret|exact Hlatest|exact Hold].
Defined.

(** The two log entries of a versioned remediation are put under one path:
    at a version with the default encryption under the prefix a/, the claim
    of distinct version suffixes fails. *)
Lemma versioned_log_entries_share_one_path :
  lookup_object (s3_objects Examples.versioned_world) "bkt" "a/x" (Some "v1")
    = inr (S3Version "v1" "AES256" None "hello") /\
  get_kms_key_info_for_s3_prefix (ddb_mapping Examples.versioned_world) "bkt" "a/x"
    = Some (info_of (Examples.policy "key-a" false)) /\
  compliant (S3Version "v1" "AES256" None "hello") (Examples.policy "key-a" false) = false /\
  calls (fix_encryption_if_incorrect "bkt" "a/x" (Some "v1") Examples.versioned_world).1 =
    [S3CopyObject "bkt" "a/x" "v1" "aws:kms" "key-a";
     LogPutItem "s3://bkt/a/x?versionId=v1" "2024-06-01 10:00:00:000001+0000"
       (LogItem "AES256" "None" "aws:kms" "key-a" "Initiated copy with the right key"
          "Incorrect SSE type. Was AES256 whereas it should have been aws:kms"
          (Some "v2"));
     S3DeleteObject "bkt" "a/x" "v1";
     LogPutItem "s3://bkt/a/x?versionId=v1" "2024-06-01 10:00:00:000002+0000"
       (LogItem "AES256" "None" "N/A" "N/A"
          "Deleted old version with incorrect encryption" "N/A" None)] /\
  ~ versioned_log_as_specified Examples.versioned_world "bkt" "a/x" "v1".
Proof.
  assert (Hrun :
    calls (fix_encryption_if_incorrect "bkt" "a/x" (Some "v1") Examples.versioned_world).1 =
    [S3CopyObject "bkt" "a/x" "v1" "aws:kms" "key-a";
     LogPutItem "s3://bkt/a/x?versionId=v1" "2024-06-01 10:00:00:000001+0000"
       (LogItem "AES256" "None" "aws:kms" "key-a" "Initiated copy with the right key"
          "Incorrect SSE type. Was AES256 whereas it should have been aws:kms"
          (Some "v2"));
     S3DeleteObject "bkt" "a/x" "v1";
     LogPutItem "s3://bkt/a/x?versionId=v1" "2024-06-01 10:00:00:000002+0000"
       (LogItem "AES256" "None" "N/A" "N/A"
          "Deleted old version with incorrect encryption" "N/A" None)])
    by (vm_compute; reflexivity).
  split_and!; [vm_compute; reflexivity..|exact Hrun|].
  intros (c1 & p1 & t1 & i1 & c2 & p2 & t2 & i2 & Hcalls & _ & _ & _ & Hd).
  cbv zeta in Hcalls. rewrite Hrun in Hcalls.
  change (calls Examples.versioned_world) with (@nil api_call) in Hcalls.
  rewrite app_nil_l in Hcalls.
  injection Hcalls as _ <- _ _ _ <- _ _.
  by apply same_path_same_suffix in Hd.
Qed.

(** ** The log table is only added to *)

Module AuditFacts.
Import FixEncryption.

Lemma advances_refl (w : world) : advances w w.
Proof. split_and!; [done|lia|]. split; auto. Qed.

Lemma advances_trans (w1 w2 w3 : world) :
  advances w1 w2 -> advances w2 w3 -> advances w1 w3.
Proof.
  intros (Hc12 & Ht12 & Hd12 & He12) (Hc23 & Ht23 & Hd23 & He23).
  split_and!; [congruence|lia|]. split.
  - intros key Hk. auto.
  - intros key e Hk Hfresh. apply He23; [by apply He12|].
    intros n Hn. rewrite Hc12. apply Hfresh. lia.
Qed.

Lemma advances_same_log (w w' : world) :
  clock w' = clock w -> ticks w <= ticks w' -> ddb_log w' = ddb_log w ->
  advances w w'.
Proof.
  intros Hc Ht Hl. split_and!; [done..|]. split; rewrite Hl; auto.
Qed.

Lemma advances_logged (path : string) (it : log_item) (w : world) :
  advances w (logged path (clock w (ticks w)) it (tick w)).
Proof.
  split_and!; autorewrite with world; [done|lia|].
  split; autorewrite with world.
  - intros key Hk. by apply lookup_insert_is_Some'; right.
  - intros key e Hk Hfresh. rewrite lookup_insert_ne; [done|].
    intros <-. by apply (Hfresh (ticks w)).
Qed.

(** A run raises at its first step, or ends with the put of a log entry. *)
Lemma fix_cases (b k : string) (vid : option string) (w : world) :
  (exists e, fix_encryption_if_incorrect b k vid w = (w, inl e)) \/
  (exists w1 it,
     fix_encryption_if_incorrect b k vid w =
       (logged (object_path b k vid) (clock w1 (ticks w1)) it (tick w1), inr tt) /\
     advances w w1 /\ ddb_mapping w1 = ddb_mapping w /\
     exists cs, calls w1 = calls w ++ cs).
Proof.
  destruct (lookup_object (s3_objects w) b k (requested vid)) as [e|o] eqn:Hget.
  { left. exists e. by apply fix_raises. }
  right.
  pose proof (resolver_cases (ddb_mapping w) b k) as Hc.
  destruct (get_kms_key_info_for_s3_prefix (ddb_mapping w) b k) as [info|] eqn:Hres.
  2:{ eexists w, _. split; [by apply fix_not_configured|].
      split_and!; [apply advances_refl|done|]. exists []. by rewrite app_nil_r. }
  destruct Hc as (p & r & _ & _ & _ & -> & _).
  destruct (compliant o r) eqn:Hco.
  { eexists w, _. split; [by apply fix_compliant|].
    split_and!; [apply advances_refl|done|]. exists []. by rewrite app_nil_r. }
  destruct (truthy vid) eqn:Hv.
  - destruct vid as [v|]; [|discriminate].
    assert (Hreq : requested (Some v) = Some v) by (unfold requested; by rewrite Hv).
    rewrite Hreq in Hget.
    pose proof (fix_versioned _ _ _ _ _ _ Hv Hget Hres Hco) as Hrun.
    cbv zeta in Hrun. rewrite Hrun.
    match goal with |- context [tick (deleted b k v ?w2)] =>
      exists (deleted b k v w2) end.
    eexists. split; [|split_and!].
    + autorewrite with world. reflexivity.
    + match goal with
      |- advances w (deleted b k v (logged ?path _ ?it (tick ?w1))) =>
        pose proof (advances_logged path it w1) as Hlog;
        apply (advances_trans w w1);
          [|eapply advances_trans; [exact Hlog|]]
      end.
      * apply advances_same_log; by autorewrite with world.
      * apply advances_same_log; by autorewrite with world.
    + by autorewrite with world.
    + autorewrite with world. rewrite <- !app_assoc. by eexists.
  - assert (Hreq : requested vid = None) by (unfold requested; by rewrite Hv).
    rewrite Hreq in Hget.
    pose proof (fix_unversioned _ _ _ _ _ _ Hv Hget Hres Hco) as Hrun.
    cbv zeta in Hrun. rewrite Hrun.
    match goal with |- context [tick ?w1] => exists w1 end.
    eexists. split; [|split_and!].
    + autorewrite with world. reflexivity.
    + apply advances_same_log; by autorewrite with world.
    + by autorewrite with world.
    + autorewrite with world. by eexists.
Qed.

Lemma fix_advances (b k : string) (vid : option string) (w : world) :
  advances w (fix_encryption_if_incorrect b k vid w).1 /\
  ddb_mapping (fix_encryption_if_incorrect b k vid w).1 = ddb_mapping w.
Proof.
  destruct (fix_cases b k vid w) as [[e ->]|(w1 & it & -> & Hadv & Hmap & _)]; simpl.
  - split; [apply advances_refl|done].
  - split; [|by autorewrite with world].
    eapply advances_trans; [exact Hadv|]. apply advances_logged.
Qed.

End AuditFacts.

(** ** The custom resource *)

Module CustomResourceFacts.
Import DdbCustomResource.

Lemma contains_elem_of (md : mapping_data_t) (p : string) :
  contains md p = true <-> p ∈ md.*1.
Proof.
  unfold contains. rewrite existsb_exists. split.
  - intros (q & Hin & ->%String.eqb_eq). by apply list_elem_of_In.
  - intros Hin. exists p. split; [by apply list_elem_of_In|apply String.eqb_refl].
Qed.

Lemma lookup_entry_None (md : mapping_data_t) (p : string) :
  lookup_entry md p = None <-> p ∉ md.*1.
Proof.
  induction md as [|[q e] md IH]; simpl.
  - split; [intros _; apply not_elem_of_nil|done].
  - rewrite not_elem_of_cons. destruct (String.eqb p q) eqn:Hpq.
    + apply String.eqb_eq in Hpq. split; [discriminate|]. intros [? _]. done.
    + apply String.eqb_neq in Hpq. rewrite IH. tauto.
Qed.

Lemma lookup_entry_Some (md : mapping_data_t) (p : string) (e : mapping_entry) :
  NoDup md.*1 ->
  lookup_entry md p = Some e <-> exists i, md !! i = Some (p, e).
Proof.
  induction md as [|[q e'] md IH]; simpl; intros Hnd.
  - split; [discriminate|]. by intros [i ?].
  - apply NoDup_cons in Hnd as [Hq Hnd]. destruct (String.eqb p q) eqn:Hpq.
    + apply String.eqb_eq in Hpq. subst q. split.
      * intros [= ->]. by exists 0.
      * intros [[|i] Hi]; simpl in Hi; [congruence|].
        destruct Hq. apply list_elem_of_fmap. exists (p, e). split; [done|].
        by eapply list_elem_of_lookup_2.
    + apply String.eqb_neq in Hpq. rewrite (IH Hnd). split.
      * intros [i Hi]. by exists (S i).
      * intros [[|i] Hi]; simpl in Hi; [congruence|by exists i].
Qed.

Lemma up_to_date_desired (r : mapping_item) (e : mapping_entry) :
  up_to_date r e = true <-> desired e r.
Proof.
  unfold up_to_date, desired. rewrite andb_true_iff, String.eqb_eq, eqb_true_iff.
  done.
Qed.

Lemma upserted_desired old (e : mapping_entry) (t : string) :
  desired e (upserted old e t).
Proof. by split. Qed.

Lemma reconciled_desired old (e : mapping_entry) (t : string) :
  exists r, reconciled old e t = Some r /\ desired e r.
Proof.
  unfold reconciled, writes. destruct old as [r|]; [|by eexists].
  destruct (up_to_date r e) eqn:Hup; simpl; [|by eexists].
  exists r. split; [done|]. by apply up_to_date_desired.
Qed.

Lemma update_ddb_items_cons (b p : string) (e : mapping_entry)
    (md : mapping_data_t) (w : world) :
  update_ddb_items b ((p, e) :: md) w = update_ddb_items b md (update_step b p e w).
Proof.
  simpl. unfold bind at 1, now. unfold bind at 1, try_except, update_item, update_step.
  change (ddb_mapping (tick w)) with (ddb_mapping w).
  unfold writes, up_to_date, upserted.
  destruct (ddb_mapping w !! (b, p)) as [r|]; [|done].
  rewrite <- negb_andb.
  by destruct (String.eqb (kms_key_arn r) (entry_kms_key_arn e)
               && Bool.eqb (dual_layer_encryption r)
                    (String.eqb (entry_dual_layer_encryption e) "true")).
Qed.

Lemma update_step_frame (b p : string) (e : mapping_entry) (w : world) :
  s3_objects (update_step b p e w) = s3_objects w /\
  ddb_log (update_step b p e w) = ddb_log w /\
  clock (update_step b p e w) = clock w /\
  ticks (update_step b p e w) = S (ticks w).
Proof. unfold update_step. by destruct (writes _ _). Qed.

Lemma update_step_mapping (b p : string) (e : mapping_entry) (w : world) key :
  ddb_mapping (update_step b p e w) !! key =
  if decide (key = (b, p))
  then reconciled (ddb_mapping w !! (b, p)) e (clock w (ticks w))
  else ddb_mapping w !! key.
Proof.
  unfold update_step, reconciled.
  destruct (writes _ _); autorewrite with world.
  - case_decide as Hk; [subst key; by rewrite lookup_insert_eq|].
    by rewrite lookup_insert_ne.
  - case_decide as Hk; [by subst key|done].
Qed.

Lemma update_step_calls (b p : string) (e : mapping_entry) (w : world) :
  calls (update_step b p e w) =
  calls w ++
  (if writes (ddb_mapping w !! (b, p)) e
   then [MappingUpdateItem b p
           (upserted (ddb_mapping w !! (b, p)) e (clock w (ticks w)))]
   else []).
Proof.
  unfold update_step. destruct (writes _ _); autorewrite with world; [done|].
  by rewrite app_nil_r.
Qed.

(** The loop of [update_ddb_items] over mapping data without a repeated
    prefix. *)
Lemma update_ddb_items_spec (b : string) (md : mapping_data_t) :
  NoDup md.*1 ->
  forall w : world,
    let run := update_ddb_items b md w in
    run.2 = inr tt /\
    s3_objects run.1 = s3_objects w /\
    ddb_log run.1 = ddb_log w /\
    clock run.1 = clock w /\
    ticks run.1 = ticks w + length md /\
    (forall key, key.1 <> b \/ key.2 ∉ md.*1 ->
                 ddb_mapping run.1 !! key = ddb_mapping w !! key) /\
    (forall i p e, md !! i = Some (p, e) ->
       ddb_mapping run.1 !! (b, p) =
       reconciled (ddb_mapping w !! (b, p)) e (clock w (ticks w + i))) /\
    exists cs, calls run.1 = calls w ++ cs /\
      forall c, c ∈ cs ->
        exists i p e, md !! i = Some (p, e) /\
          writes (ddb_mapping w !! (b, p)) e = true /\
          c = MappingUpdateItem b p
                (upserted (ddb_mapping w !! (b, p)) e (clock w (ticks w + i))).
Proof.
  induction md as [|[p e] md IH]; intros Hnd w.
  - simpl. split_and!; try done.
    exists []. split; [by rewrite app_nil_r|]. intros c Hc. by apply elem_of_nil in Hc.
  - cbv zeta. rewrite update_ddb_items_cons.
    apply NoDup_cons in Hnd as [Hp Hnd].
    destruct (IH Hnd (update_step b p e w))
      as (Hret & Hs3 & Hlog & Hclock & Hticks & Hframe & Hitems & cs & Hcalls & Hcs).
    destruct (update_step_frame b p e w) as (Hs3' & Hlog' & Hclock' & Hticks').
    split_and!.
    + done.
    + congruence.
    + congruence.
    + congruence.
    + rewrite Hticks, Hticks'. simpl. lia.
    + intros key Hkey. rewrite Hframe, update_step_mapping.
      * case_decide as Hk; [|done]. subst key. simpl in Hkey.
        destruct Hkey as [?|Hkey]; [done|]. destruct Hkey. simpl. left.
      * simpl in Hkey. rewrite not_elem_of_cons in Hkey. tauto.
    + intros [|i] q e' Hi; simpl in Hi.
      * injection Hi as -> ->. rewrite Hframe by (by right).
        rewrite update_step_mapping, decide_True by done.
        by rewrite Nat.add_0_r.
      * assert (Hq : q <> p).
        { intros ->. apply Hp. apply list_elem_of_fmap. exists (p, e').
          split; [done|]. by eapply list_elem_of_lookup_2. }
        rewrite (Hitems i q e' Hi), update_step_mapping, decide_False by congruence.
        rewrite Hclock', Hticks'. do 2 f_equal. lia.
    + eexists. rewrite Hcalls, update_step_calls, <- app_assoc. split; [done|].
      intros c Hc. apply elem_of_app in Hc as [Hc|Hc].
      * destruct (writes (ddb_mapping w !! (b, p)) e) eqn:Hw;
          [|by apply elem_of_nil in Hc].
        apply list_elem_of_singleton in Hc. subst c. exists 0, p, e.
        rewrite Nat.add_0_r. done.
      * destruct (Hcs c Hc) as (i & q & e' & Hi & Hw & ->).
        assert (Hq : q <> p).
        { intros ->. apply Hp. apply list_elem_of_fmap. exists (p, e').
          split; [done|]. by eapply list_elem_of_lookup_2. }
        rewrite update_step_mapping, decide_False in Hw |- * by congruence.
        exists (S i), q, e'. split_and!; [done..|].
        rewrite Hclock', Hticks'. do 3 f_equal. lia.
Qed.

Lemma delete_missing_cons (md : mapping_data_t) (item : string * string)
    (items : list (string * string)) (w : world) :
  delete_missing md (item :: items) w =
  delete_missing md items
    (if contains md item.2 then w
     else mapping_written (MappingDeleteItem item.1 item.2) (delete item) w).
Proof. simpl. unfold bind at 1. by destruct (contains md item.2). Qed.

(** The loop of [delete_missing_ddb_items]. *)
Lemma delete_missing_frame (md : mapping_data_t) (items : list (string * string)) :
  forall w : world,
    let run := delete_missing md items w in
    run.2 = inr tt /\
    s3_objects run.1 = s3_objects w /\
    ddb_log run.1 = ddb_log w /\
    clock run.1 = clock w /\
    ticks run.1 = ticks w.
Proof.
  induction items as [|item items IH]; intros w; [done|].
  cbv zeta. rewrite delete_missing_cons.
  match goal with |- context [delete_missing md items ?w1] =>
    destruct (IH w1) as (Hret & Hs3 & Hlog & Hclock & Hticks) end.
  destruct (contains md item.2); [done|].
  by autorewrite with world in *.
Qed.

Lemma delete_missing_mapping (md : mapping_data_t) (items : list (string * string)) :
  forall (w : world) key,
    ddb_mapping (delete_missing md items w).1 !! key =
    if decide (key ∈ items /\ contains md key.2 = false) then None
    else ddb_mapping w !! key.
Proof.
  induction items as [|item items IH]; intros w key.
  - change ((delete_missing md [] w).1) with w.
    destruct (decide _) as [[H _]|_]; [by apply elem_of_nil in H|done].
  - rewrite delete_missing_cons, IH.
    destruct (decide (key ∈ items /\ contains md key.2 = false)) as [[Hin Hc]|Hno].
    + rewrite decide_True; [done|]. split; [apply elem_of_cons; tauto|done].
    + destruct (decide (key ∈ item :: items /\ contains md key.2 = false))
        as [[Hin Hc]|Hno'].
      * apply elem_of_cons in Hin as [->|Hin]; [|tauto].
        rewrite Hc. autorewrite with world. apply lookup_delete_eq.
      * destruct (contains md item.2) eqn:Hitem; [done|].
        autorewrite with world. apply lookup_delete_ne. intros <-.
        apply Hno'. split; [apply elem_of_cons; tauto|done].
Qed.

Lemma delete_missing_calls (md : mapping_data_t) (items : list (string * string)) :
  forall w : world,
    exists cs, calls (delete_missing md items w).1 = calls w ++ cs /\
      forall c, c ∈ cs <->
        exists key, key ∈ items /\ contains md key.2 = false /\
                    c = MappingDeleteItem key.1 key.2.
Proof.
  induction items as [|item items IH]; intros w.
  - exists []. split; [by rewrite app_nil_r|]. intros c. split.
    + intros Hc. by apply elem_of_nil in Hc.
    + intros (key & H & _). by apply elem_of_nil in H.
  - rewrite delete_missing_cons.
    match goal with |- context [delete_missing md items ?w1] =>
      destruct (IH w1) as (cs & Hcalls & Hcs) end.
    destruct (contains md item.2) eqn:Hitem.
    + exists cs. split; [done|]. intros c. rewrite Hcs. split.
      * intros (key & Hk & Hc & ->). exists key. split_and!; [|done..].
        apply elem_of_cons. tauto.
      * intros (key & Hk & Hc & ->). exists key. split_and!; [|done..].
        apply elem_of_cons in Hk as [->|Hk]; [congruence|done].
    + autorewrite with world in Hcalls. eexists.
      rewrite Hcalls, <- app_assoc. split; [done|]. intros c.
      rewrite elem_of_app, Hcs, list_elem_of_singleton. split.
      * intros [->|(key & Hk & Hc & ->)].
        -- exists item. split_and!; [apply elem_of_cons; tauto|done..].
        -- exists key. split_and!; [apply elem_of_cons; tauto|done..].
      * intros (key & Hk & Hc & ->).
        apply elem_of_cons in Hk as [->|Hk]; [by left|]. right. by exists key.
Qed.

(** What [query_table] returns: the keys of the items of the bucket. *)
Lemma query_table_run (b : string) (w : world) :
  exists keys, query_table b w = (w, inr keys) /\
    forall key, key ∈ keys <-> key.1 = b /\ is_Some (ddb_mapping w !! key).
Proof.
  eexists. split; [reflexivity|]. intros key.
  rewrite merge_sort_Permutation, list_elem_of_filter, list_elem_of_fmap.
  split.
  - intros [Hb [[key' r] [-> Hin]]]. apply elem_of_map_to_list in Hin. eauto.
  - intros [Hb [r Hr]]. split; [done|]. exists (key, r). split; [done|].
    by apply elem_of_map_to_list.
Qed.

Lemma elem_of_keys (md : mapping_data_t) (i : nat) (p : string) (e : mapping_entry) :
  md !! i = Some (p, e) -> p ∈ md.*1.
Proof.
  intros Hi. apply list_elem_of_fmap. exists (p, e). split; [done|].
  by eapply list_elem_of_lookup_2.
Qed.

(** [on_update] on mapping data without a repeated prefix. *)
Lemma on_update_spec (ev : event_t) (w w' : world) (physical_id : string) :
  let b := BucketName (props ev) in
  let md := MappingData (props ev) in
  NoDup md.*1 ->
  on_update ev w = (w', inr physical_id) ->
  PhysicalResourceId ev = Some physical_id /\
  s3_objects w' = s3_objects w /\
  ddb_log w' = ddb_log w /\
  (forall i p e, md !! i = Some (p, e) ->
     ddb_mapping w' !! (b, p) =
     reconciled (ddb_mapping w !! (b, p)) e (clock w (ticks w + i))) /\
  (forall p, p ∉ md.*1 -> ddb_mapping w' !! (b, p) = None) /\
  (forall key, key.1 <> b -> ddb_mapping w' !! key = ddb_mapping w !! key) /\
  exists cs1 cs2, calls w' = calls w ++ cs1 ++ cs2 /\
    (forall c, c ∈ cs1 ->
       exists i p e, md !! i = Some (p, e) /\
         writes (ddb_mapping w !! (b, p)) e = true /\
         c = MappingUpdateItem b p
               (upserted (ddb_mapping w !! (b, p)) e (clock w (ticks w + i)))) /\
    (forall c, c ∈ cs2 <->
       exists p, (p ∉ md.*1) /\ is_Some (ddb_mapping w !! (b, p)) /\
                 c = MappingDeleteItem b p).
Proof.
  intros b md Hnd. unfold on_update, physical_resource_id.
  destruct (PhysicalResourceId ev) as [id|]; [|discriminate].
  fold b md. unfold bind at 1, ret at 1. unfold bind at 1.
  destruct (update_ddb_items_spec b md Hnd w)
    as (Hret & Hs3 & Hlog & Hclock & Hticks & Hframe & Hitems & cs1 & Hcalls1 & Hcs1).
  destruct (update_ddb_items b md w) as [w1 res1]. simpl in *. subst res1.
  unfold delete_missing_ddb_items, bind at 1. unfold bind at 1.
  destruct (query_table_run b w1) as (keys & -> & Hkeys).
  destruct (delete_missing_frame md keys w1) as (Hret2 & Hs32 & Hlog2 & _).
  pose proof (delete_missing_mapping md keys w1) as Hmap2.
  destruct (delete_missing_calls md keys w1) as (cs2 & Hcalls2 & Hcs2).
  destruct (delete_missing md keys w1) as [w2 res2]. simpl in *. subst res2.
  intros [= <- <-]. split_and!.
  - done.
  - congruence.
  - congruence.
  - intros i p e Hi. rewrite Hmap2, decide_False; [by apply Hitems|].
    intros [_ Hc]. simpl in Hc.
    apply elem_of_keys, contains_elem_of in Hi. congruence.
  - intros p Hp. rewrite Hmap2. destruct (decide _) as [_|Hno]; [done|].
    rewrite Hframe by (by right).
    destruct (ddb_mapping w !! (b, p)) as [r|] eqn:Hr; [|done].
    destruct Hno. split.
    + apply Hkeys. split; [done|]. rewrite Hframe; [by rewrite Hr|by right].
    + simpl. destruct (contains md p) eqn:Hc; [|done].
      by apply contains_elem_of in Hc.
  - intros key Hkey. rewrite Hmap2, decide_False.
    + apply Hframe. by left.
    + intros [Hin _]. apply Hkeys in Hin as [? _]. done.
  - exists cs1, cs2. rewrite Hcalls2, Hcalls1, <- app_assoc.
    split_and!; [done|done|]. intros c. rewrite Hcs2. split.
    + intros ([b' p] & Hin & Hc & ->). apply Hkeys in Hin as [Hb Hsome].
      simpl in *. subst b'.
      assert (Hp : p ∉ md.*1) by (intros Hp%contains_elem_of; congruence).
      exists p. split_and!; [done| |done].
      rewrite <- Hframe; [done|by right].
    + intros (p & Hp & Hsome & ->). exists (b, p). split_and!; [|simpl|done].
      * apply Hkeys. split; [done|]. rewrite Hframe; [done|by right].
      * destruct (contains md p) eqn:Hc; [|done]. by apply contains_elem_of in Hc.
Qed.

End CustomResourceFacts.

Import DdbCustomResource CustomResourceFacts.

(** C2. Reconcile. When [on_update] returns for mapping data without a
    repeated prefix, the records of the bucket are the entries of the mapping
    data: every prefix of the mapping data has a record with the key and the
    flag of its entry, and no other prefix of the bucket has a record. A
    prefix that had no record got one, with both timestamps the time of the
    write; a record that differed got the key and the flag of the entry; a
    record whose prefix is not in the mapping data was deleted. The records
    of other buckets are as before. *)
Theorem reconcile_makes_the_table_the_desired_state
    (ev : event_t) (w w' : world) (physical_id : string) :
  let b := BucketName (props ev) in
  let md := MappingData (props ev) in
  NoDup md.*1 ->
  on_update ev w = (w', inr physical_id) ->
  (forall p, match lookup_entry md p with
             | Some e => exists r, ddb_mapping w' !! (b, p) = Some r /\ desired e r
             | None => ddb_mapping w' !! (b, p) = None
             end) /\
  (forall p e, lookup_entry md p = Some e -> ddb_mapping w !! (b, p) = None ->
     exists t, ddb_mapping w' !! (b, p) =
       Some {| kms_key_arn := entry_kms_key_arn e;
               dual_layer_encryption := String.eqb (entry_dual_layer_encryption e) "true";
               insert_ts := t; last_update_ts := t |}) /\
  (forall p e r, lookup_entry md p = Some e -> ddb_mapping w !! (b, p) = Some r ->
     ~ desired e r ->
     exists t, ddb_mapping w' !! (b, p) =
       Some {| kms_key_arn := entry_kms_key_arn e;
               dual_layer_encryption := String.eqb (entry_dual_layer_encryption e) "true";
               insert_ts := insert_ts r; last_update_ts := t |}) /\
  (forall p r, ddb_mapping w !! (b, p) = Some r -> lookup_entry md p = None ->
     ddb_mapping w' !! (b, p) = None /\ MappingDeleteItem b p ∈ calls w') /\
  (forall b' p, b' <> b -> ddb_mapping w' !! (b', p) = ddb_mapping w !! (b', p)).
Proof.
  intros b md Hnd Hrun.
  destruct (on_update_spec ev w w' physical_id Hnd Hrun)
    as (_ & _ & _ & Hitems & Hgone & Hframe & cs1 & cs2 & Hcalls & _ & Hcs2).
  fold b md in Hitems, Hgone, Hframe, Hcs2.
  split_and!.
  - intros p. destruct (lookup_entry md p) as [e|] eqn:He.
    + apply lookup_entry_Some in He as [i Hi]; [|done].
      rewrite (Hitems i p e Hi). apply reconciled_desired.
    + apply Hgone. by apply lookup_entry_None.
  - intros p e He Hnone. apply lookup_entry_Some in He as [i Hi]; [|done].
    rewrite (Hitems i p e Hi), Hnone. by eexists.
  - intros p e r He Hr Hdiff. apply lookup_entry_Some in He as [i Hi]; [|done].
    rewrite (Hitems i p e Hi), Hr. unfold reconciled, writes.
    destruct (up_to_date r e) eqn:Hup; [by apply up_to_date_desired in Hup|].
    by eexists.
  - intros p r Hr Hnone. apply lookup_entry_None in Hnone. split; [by apply Hgone|].
    rewrite Hcalls, !elem_of_app. right. right. apply Hcs2. exists p.
    split_and!; [done| |done]. by rewrite Hr.
  - intros b' p Hb. by apply Hframe.
Qed.

Lemma reconcile_makes_the_table_the_desired_state_witness :
  let w' := (on_update (Examples.update_event Examples.minimal_diff)
                       Examples.reconcile_world).1 in
  (exists r, ddb_mapping w' !! ("bkt", "p3") = Some r /\
             desired (MappingEntry "k3" "true") r) /\
  ddb_mapping w' !! ("bkt", "p2") = None /\
  ddb_mapping w' !! ("other", "p2") = Some (Examples.policy "k9" true).
Proof.
  intros w'.
  destruct (reconcile_makes_the_table_the_desired_state
              (Examples.update_event Examples.minimal_diff)
              Examples.reconcile_world w' "CRToManageMappingForBucketbkt")
    as (Hall & _ & _ & _ & Hframe).
  - refine (bool_decide_unpack _ _). vm_compute. exact I.
  - vm_compute. reflexivity.
  - split_and!.
    + exact (Hall "p3").
    + exact (Hall "p2").
    + rewrite (Hframe "other" "p2"); [vm_compute; reflexivity|discriminate].
Defined.

(** C5. A record that already has the desired key and flag. When
    [on_update] returns, such a record of the bucket is the record it was,
    timestamps included; none of the writes of the run is a write to its
    key. The conditional update of such a record raises
    ConditionalCheckFailedException and changes nothing, and the loop over
    the mapping data returns all the same. In the minimal-diff example (p1
    and p2 stored, p1 and p3 desired, p1 as stored) the writes are the
    insertion of p3 and the deletion of p2, and p1 is as it was. *)
Theorem up_to_date_record_is_not_written
    (ev : event_t) (w w' : world) (physical_id p : string)
    (e : mapping_entry) (r : mapping_item) :
  let b := BucketName (props ev) in
  let md := MappingData (props ev) in
  NoDup md.*1 ->
  on_update ev w = (w', inr physical_id) ->
  lookup_entry md p = Some e ->
  ddb_mapping w !! (b, p) = Some r ->
  desired e r ->
  ddb_mapping w' !! (b, p) = Some r /\
  (exists cs, calls w' = calls w ++ cs /\
     forall c it, c ∈ cs ->
       c <> MappingUpdateItem b p it /\ c <> MappingPutItem b p it /\
       c <> MappingDeleteItem b p) /\
  (forall (w0 : world) (t : string),
     ddb_mapping w0 !! (b, p) = Some r ->
     update_item b p (entry_kms_key_arn e)
                 (String.eqb (entry_dual_layer_encryption e) "true") t w0
     = (w0, inl ConditionalCheckFailedException)) /\
  (update_ddb_items b md w).2 = inr tt /\
  (let w1 := (on_update (Examples.update_event Examples.minimal_diff)
                        Examples.reconcile_world).1 in
   calls w1 =
     [MappingUpdateItem "bkt" "p3"
        (MappingItem "k3" true "2024-06-01 10:00:00:000002+0000"
                     "2024-06-01 10:00:00:000002+0000");
      MappingDeleteItem "bkt" "p2"] /\
   ddb_mapping w1 !! ("bkt", "p1") = Some (Examples.policy "k1" false)).
Proof.
  intros b md Hnd Hrun He Hr Hdes.
  destruct (on_update_spec ev w w' physical_id Hnd Hrun)
    as (_ & _ & _ & Hitems & _ & _ & cs1 & cs2 & Hcalls & Hcs1 & Hcs2).
  fold b md in Hitems, Hcs1, Hcs2.
  assert (Hup : up_to_date r e = true) by by apply up_to_date_desired.
  pose proof He as [i Hi]%lookup_entry_Some; [|done].
  split_and!.
  - rewrite (Hitems i p e Hi), Hr. unfold reconciled, writes. by rewrite Hup.
  - exists (cs1 ++ cs2). split; [done|]. intros c it [Hc|Hc]%elem_of_app.
    + destruct (Hcs1 c Hc) as (j & q & e' & Hj & Hw & ->).
      split_and!; [|done..]. intros [= -> _].
      assert (e' = e) as ->.
      { assert (lookup_entry md p = Some e')
          by (apply (lookup_entry_Some md p e' Hnd); eauto).
        congruence. }
      rewrite Hr in Hw. simpl in Hw. by rewrite Hup in Hw.
    + apply Hcs2 in Hc as (q & Hq & _ & ->). split_and!; [done..|].
      intros [= ->]. apply Hq. by eapply elem_of_keys.
  - intros w0 t Hw0. unfold update_item. rewrite Hw0.
    unfold up_to_date in Hup. apply andb_true_iff in Hup as [-> ->]. done.
  - by destruct (update_ddb_items_spec b md Hnd w) as (Hret & _).
  - split; vm_compute; reflexivity.
Qed.

Lemma up_to_date_record_is_not_written_witness :
  let w' := (on_update (Examples.update_event Examples.minimal_diff)
                       Examples.reconcile_world).1 in
  ddb_mapping w' !! ("bkt", "p1") = Some (Examples.policy "k1" false).
Proof.
  intros w'.
  destruct (up_to_date_record_is_not_written
              (Examples.update_event Examples.minimal_diff)
              Examples.reconcile_world w' "CRToManageMappingForBucketbkt" "p1"
              (MappingEntry "k1" "false") (Examples.policy "k1" false))
    as (Hsame & _).
  - refine (bool_decide_unpack _ _). vm_compute. exact I.
  - vm_compute. reflexivity.
  - reflexivity.
  - vm_compute. reflexivity.
  - split; reflexivity.
  - exact Hsame.
Defined.



(** ** The batch handler *)

Module HandlerFacts.
Import FixEncryption S3Encrypt AuditFacts.

Section Handler.

Variable unquote_plus : string -> string.

Abbreviation process_record := (process_record unquote_plus).
Abbreviation process_message := (process_message unquote_plus).

(** What a record adds to the failures does not depend on the failures
    found before. *)
Lemma process_record_app (id : string) (w : world) (l : list string) (rec : s3_record) :
  process_record id (w, l) rec =
  ((process_record id (w, []) rec).1, l ++ (process_record id (w, []) rec).2).
Proof.
  unfold S3Encrypt.process_record. simpl.
  destruct (fix_encryption_if_incorrect _ _ _ w) as [w' [e|[]]]; simpl; [done|].
  by rewrite app_nil_r.
Qed.

Lemma process_records_app (id : string) (recs : list s3_record) :
  forall (w : world) (l : list string),
    foldl (process_record id) (w, l) recs =
    ((foldl (process_record id) (w, []) recs).1,
     l ++ (foldl (process_record id) (w, []) recs).2).
Proof.
  induction recs as [|rec recs IH]; intros w l; simpl.
  - by rewrite app_nil_r.
  - rewrite (process_record_app id w l rec).
    destruct (process_record id (w, []) rec) as [w1 f1]. simpl.
    rewrite (IH w1 (l ++ f1)), (IH w1 f1). simpl. by rewrite app_assoc.
Qed.

(** The failures of the records of one message: its id, once for each
    record that raised. *)
Lemma process_records_failures (id : string) (recs : list s3_record) :
  forall w : world,
    Forall (fun x => x = id) (foldl (process_record id) (w, []) recs).2 /\
    ((foldl (process_record id) (w, []) recs).2 <> [] <->
     some_record_raises unquote_plus w recs).
Proof.
  induction recs as [|rec recs IH]; intros w; simpl.
  - split; [constructor|]. tauto.
  - destruct (process_record id (w, []) rec) as [w1 f1] eqn:Hstep.
    rewrite (process_records_app id recs w1 f1). simpl.
    destruct (IH w1) as [Hall Hiff].
    unfold S3Encrypt.process_record in Hstep. simpl in Hstep.
    unfold returned.
    destruct (fix_encryption_if_incorrect _ _ _ w) as [w' [e|[]]];
      simpl in *; injection Hstep as <- <-.
    + split; [by constructor|]. split; [by left|done].
    + split; [done|]. simpl. rewrite Hiff. split; [by right|]. by intros [?|?].
Qed.

Lemma process_message_app (w : world) (l : list string) (m : sqs_message) :
  process_message (w, l) m =
  ((process_message (w, []) m).1, l ++ (process_message (w, []) m).2).
Proof.
  unfold S3Encrypt.process_message. destruct (sqs_body m) as [recs|].
  - apply process_records_app.
  - simpl. by rewrite app_nil_r.
Qed.

Lemma process_message_failures (w : world) (m : sqs_message) :
  Forall (fun x => x = messageId m) (process_message (w, []) m).2 /\
  ((process_message (w, []) m).2 <> [] <-> message_failed unquote_plus w m).
Proof.
  unfold S3Encrypt.process_message, message_failed.
  destruct (sqs_body m) as [recs|]; [apply process_records_failures|].
  simpl. split; [constructor|tauto].
Qed.

Lemma process_messages_app (ms : list sqs_message) :
  forall (w : world) (l : list string),
    foldl process_message (w, l) ms =
    ((foldl process_message (w, []) ms).1,
     l ++ (foldl process_message (w, []) ms).2).
Proof.
  induction ms as [|m ms IH]; intros w l; simpl.
  - by rewrite app_nil_r.
  - rewrite (process_message_app w l m).
    destruct (process_message (w, []) m) as [w1 f1]. simpl.
    rewrite (IH w1 (l ++ f1)), (IH w1 f1). simpl. by rewrite app_assoc.
Qed.

Lemma world_before_0 (ms : list sqs_message) (w : world) :
  world_before unquote_plus ms w 0 = w.
Proof. unfold world_before. by rewrite take_0. Qed.

Lemma world_before_S (m : sqs_message) (ms : list sqs_message) (w : world) (i : nat) :
  world_before unquote_plus (m :: ms) w (S i) =
  world_before unquote_plus ms (process_message (w, []) m).1 i.
Proof.
  unfold world_before. simpl.
  destruct (process_message (w, []) m) as [w1 f1]. simpl.
  by rewrite (process_messages_app (take i ms) w1 f1).
Qed.

(** The failures of a batch: the ids of the messages that failed. *)
Lemma batch_failures (ms : list sqs_message) :
  forall (w : world) (id : string),
    id ∈ (foldl process_message (w, []) ms).2 <->
    exists i m, failed_in unquote_plus ms w i m /\ messageId m = id.
Proof.
  induction ms as [|m ms IH]; intros w id.
  - simpl. split; [by intros ?%elem_of_nil|].
    intros (i & m & [Hi _] & _). by rewrite lookup_nil in Hi.
  - simpl. destruct (process_message_failures w m) as [Hall Hfail].
    pose proof (world_before_S m ms w) as HS.
    destruct (process_message (w, []) m) as [w1 f1]. simpl in *.
    rewrite (process_messages_app ms w1 f1). simpl. rewrite elem_of_app, IH.
    split.
    + intros [Hin|(i & m' & [Hi Hf] & Hid)].
      * exists 0, m. rewrite Forall_forall in Hall.
        split; [|symmetry; by apply Hall].
        split; [done|]. rewrite world_before_0. apply Hfail.
        intros Hnil. rewrite Hnil in Hin. by apply elem_of_nil in Hin.
      * exists (S i), m'. split; [|done]. split; [done|]. by rewrite HS.
    + intros ([|i] & m' & [Hi Hf] & Hid).
      * simpl in Hi. injection Hi as <-. rewrite world_before_0 in Hf.
        apply Hfail in Hf. left.
        destruct f1 as [|x l]; [done|].
        apply Forall_cons in Hall as [-> _]. rewrite Hid. apply elem_of_cons. by left.
      * right. exists i, m'. split; [|done]. split; [done|].
        by rewrite <- HS.
Qed.

(** A message with at most one record is listed at most once. *)
Lemma process_message_single (w : world) (m : sqs_message) :
  (forall recs, sqs_body m = Some recs -> length recs <= 1) ->
  (process_message (w, []) m).2 = [] \/
  (process_message (w, []) m).2 = [messageId m].
Proof.
  intros Hone. unfold S3Encrypt.process_message.
  destruct (sqs_body m) as [[|rec [|rec' recs]]|]; simpl; [by left| |..|by left].
  - unfold S3Encrypt.process_record. simpl.
    destruct (fix_encryption_if_incorrect _ _ _ w) as [w' [e|[]]]; auto.
  - specialize (Hone _ eq_refl). simpl in Hone. lia.
Qed.

(** With one record to a message and distinct message ids, no id is listed
    twice. *)
Lemma batch_failures_NoDup (ms : list sqs_message) :
  forall w : world,
    (forall m recs, m ∈ ms -> sqs_body m = Some recs -> length recs <= 1) ->
    NoDup (messageId <$> ms) ->
    NoDup (foldl process_message (w, []) ms).2.
Proof.
  induction ms as [|m ms IH]; intros w Hone Hnd; simpl; [constructor|].
  apply NoDup_cons in Hnd as [Hm Hnd].
  destruct (process_message_single w m) as [Hf|Hf].
  { intros recs. apply Hone, elem_of_cons. by left. }
  - destruct (process_message (w, []) m) as [w1 f1]. simpl in Hf. subst f1.
    apply IH; [|done]. intros m' recs Hin. apply Hone, elem_of_cons. by right.
  - destruct (process_message (w, []) m) as [w1 f1]. simpl in Hf. subst f1.
    rewrite (process_messages_app ms w1 [messageId m]). simpl.
    apply NoDup_cons. split.
    + intros (i & m' & [Hi _] & Hid)%batch_failures. apply Hm.
      rewrite <- Hid. apply list_elem_of_fmap. exists m'. split; [done|].
      by eapply list_elem_of_lookup_2.
    + apply IH; [|done]. intros m' recs Hin. apply Hone, elem_of_cons. by right.
Qed.

(** Each step of the handler extends the log table. *)
Lemma process_record_advances (id : string) (st : world * list string) (rec : s3_record) :
  advances st.1 (process_record id st rec).1.
Proof.
  unfold S3Encrypt.process_record.
  pose proof (fix_advances (rec_bucket_name rec) (unquote_plus (rec_object_key rec))
                (rec_version_id rec) st.1) as [Hadv _].
  by destruct (fix_encryption_if_incorrect _ _ _ st.1) as [w' [e|[]]].
Qed.

Lemma process_message_advances (st : world * list string) (m : sqs_message) :
  advances st.1 (process_message st m).1.
Proof.
  unfold S3Encrypt.process_message. destruct (sqs_body m) as [recs|];
    [|apply advances_refl].
  revert st. induction recs as [|rec recs IH]; intros st; simpl;
    [apply advances_refl|].
  eapply advances_trans; [apply process_record_advances|apply IH].
Qed.

Lemma lambda_handler_advances (event : list sqs_message) (w : world) :
  advances w (lambda_handler unquote_plus event w).1.
Proof.
  unfold lambda_handler.
  assert (H : forall st, advances st.1 (foldl process_message st event).1).
  { induction event as [|m ms IH]; intros st; simpl; [apply advances_refl|].
    eapply advances_trans; [apply process_message_advances|apply IH]. }
  specialize (H (w, [])). simpl in H.
  by destruct (length _ =? 0)%nat.
Qed.

End Handler.

End HandlerFacts.

(** ** The custom resource never touches the log table *)

Module LogFrameFacts.
Import DdbCustomResource.

Lemma keeps_log_ret {A} (a : A) : keeps_log (ret a).
Proof. by intros w. Qed.

Lemma keeps_log_raise {A} (e : exn) : keeps_log (@raise A e).
Proof. by intros w. Qed.

Lemma keeps_log_gets {A} (f : world -> A) : keeps_log (gets f).
Proof. by intros w. Qed.

Lemma keeps_log_now : keeps_log now.
Proof. by intros w. Qed.

Lemma keeps_log_bind {A B} (m : M A) (k : A -> M B) :
  keeps_log m -> (forall a, keeps_log (k a)) -> keeps_log (bind m k).
Proof.
  intros Hm Hk w. unfold bind. specialize (Hm w).
  destruct (m w) as [w1 [e|a]]; simpl in *; [done|].
  by rewrite Hk.
Qed.

Lemma keeps_log_try_except {A} (m : M A) (h : exn -> M A) :
  keeps_log m -> (forall e, keeps_log (h e)) -> keeps_log (try_except m h).
Proof.
  intros Hm Hh w. unfold try_except. specialize (Hm w).
  destruct (m w) as [w1 [e|a]]; simpl in *; [|done].
  by rewrite Hh.
Qed.

Lemma keeps_log_mapping_written (c : api_call) f :
  keeps_log (modify (mapping_written c f)).
Proof. by intros w. Qed.

Lemma keeps_log_update_item (b p k : string) (d : bool) (t : string) :
  keeps_log (update_item b p k d t).
Proof.
  intros w. unfold update_item.
  destruct (ddb_mapping w !! (b, p)) as [r|]; [|done].
  by destruct (_ || _).
Qed.

Create HintDb keeps.

#[local] Hint Resolve keeps_log_ret keeps_log_raise keeps_log_gets keeps_log_now
  keeps_log_mapping_written keeps_log_update_item : keeps.

Lemma keeps_log_insert_ddb_items (b : string) (md : mapping_data_t) :
  keeps_log (insert_ddb_items b md).
Proof.
  induction md as [|[p e] md IH]; simpl; [apply keeps_log_ret|].
  apply keeps_log_bind; [apply keeps_log_now|]. intros t.
  apply keeps_log_bind; [apply keeps_log_mapping_written|done].
Qed.

Lemma keeps_log_update_ddb_items (b : string) (md : mapping_data_t) :
  keeps_log (update_ddb_items b md).
Proof.
  induction md as [|[p e] md IH]; simpl; [apply keeps_log_ret|].
  apply keeps_log_bind; [apply keeps_log_now|]. intros t.
  apply keeps_log_bind; [|done].
  apply keeps_log_try_except; [apply keeps_log_update_item|].
  intros []; auto with keeps.
Qed.

Lemma keeps_log_delete_each (items : list (string * string)) :
  keeps_log (delete_each items).
Proof.
  induction items as [|item items IH]; simpl; [apply keeps_log_ret|].
  apply keeps_log_bind; [apply keeps_log_mapping_written|done].
Qed.

Lemma keeps_log_delete_missing (md : mapping_data_t) (items : list (string * string)) :
  keeps_log (delete_missing md items).
Proof.
  induction items as [|item items IH]; simpl; [apply keeps_log_ret|].
  apply keeps_log_bind; [|done].
  destruct (negb _); [apply keeps_log_mapping_written|apply keeps_log_ret].
Qed.

Lemma keeps_log_physical_resource_id (ev : event_t) :
  keeps_log (physical_resource_id ev).
Proof. unfold physical_resource_id. destruct (PhysicalResourceId ev); auto with keeps. Qed.

(** No request of the custom resource is a request to the log table. *)
Lemma keeps_log_on_event (ev : event_t) : keeps_log (on_event ev).
Proof.
  unfold on_event, on_create, on_update, on_delete,
    delete_ddb_items, delete_missing_ddb_items.
  repeat match goal with
         | |- keeps_log (if ?c then _ else _) => destruct c
         | |- keeps_log (bind _ _) => apply keeps_log_bind
         | |- forall _, _ => intros ?
         | |- _ => first [ apply keeps_log_insert_ddb_items
                         | apply keeps_log_update_ddb_items
                         | apply keeps_log_delete_each
                         | apply keeps_log_delete_missing
                         | apply keeps_log_physical_resource_id
                         | apply keeps_log_ret | apply keeps_log_raise
                         | apply keeps_log_gets ]
         end.
Qed.

End LogFrameFacts.

Import S3Encrypt AuditFacts HandlerFacts LogFrameFacts.

(** C4. The response of the batch handler. When no message of the batch
    failed the response is the status 200 without a list of failures; when
    some message failed it is the status 500 with a list of failures, and an
    id is in that list exactly when it is the id of a message of the batch
    that failed (a message is listed once for each of its records that
    failed; with one record to a message, as S3 sends them, and distinct
    message ids, no id is listed twice). In the batch of three messages whose second object is
    gone, the second message is the only one that fails and the response is
    the status 500 with the id of the second message alone. *)
Theorem batch_response_lists_the_failed_messages
    (unquote_plus : string -> string) (event : list sqs_message) (w : world) :
  let response := (lambda_handler unquote_plus event w).2 in
  ((forall i m, ~ failed_in unquote_plus event w i m) ->
   response = {| statusCode := 200; batchItemFailures := None |}) /\
  ((exists i m, failed_in unquote_plus event w i m) ->
   exists ids,
     response = {| statusCode := 500; batchItemFailures := Some ids |} /\
     forall id, id ∈ ids <->
                exists i m, failed_in unquote_plus event w i m /\ messageId m = id) /\
  ((forall m recs, m ∈ event -> sqs_body m = Some recs -> length recs <= 1) ->
   NoDup (messageId <$> event) ->
   forall ids, batchItemFailures response = Some ids -> NoDup ids) /\
  (forall i m,
     failed_in unquote_plain Examples.batch_of_three Examples.versioned_world i m <->
     i = 1 /\ m = SqsMessage "id-2" (Some [S3Record "bkt" "a/gone" None])) /\
  (lambda_handler unquote_plain Examples.batch_of_three Examples.versioned_world).2
    = {| statusCode := 500; batchItemFailures := Some ["id-2"] |}.
Proof.
  cbv zeta. split_and!.
  - intros Hnone. unfold lambda_handler.
    pose proof (batch_failures unquote_plus event w) as Hids.
    destruct (foldl (process_message unquote_plus) (w, []) event).2 as [|id ids];
      [done|].
    destruct (proj1 (Hids id)) as (i & m & Hf & _); [by left|]. by destruct (Hnone i m).
  - intros (i & m & Hf). unfold lambda_handler.
    pose proof (batch_failures unquote_plus event w) as Hids.
    destruct (foldl (process_message unquote_plus) (w, []) event).2 as [|id ids] eqn:Hl.
    + assert (Hin : messageId m ∈ @nil string) by (apply Hids; eauto).
      by apply elem_of_nil in Hin.
    + simpl. by eexists.
  - intros Hone Hnd ids. unfold lambda_handler.
    pose proof (batch_failures_NoDup unquote_plus event w Hone Hnd) as Hnodup.
    destruct (foldl (process_message unquote_plus) (w, []) event).2 as [|id l];
      simpl; [discriminate|]. by intros [= <-].
  - intros i m. unfold failed_in. split.
    + intros [Hi Hf]. destruct i as [|[|[|i]]]; simpl in Hi; [| | |done];
        injection Hi as <-.
      * vm_compute in Hf. by destruct Hf.
      * done.
      * vm_compute in Hf. by destruct Hf.
    + intros [-> ->]. split; [done|]. left. vm_compute. reflexivity.
  - vm_compute. reflexivity.
Qed.

(** C10. A message without records. A message whose body has no Records
    field is skipped: the handler goes on with the world and the failures it
    had, so nothing is remediated, nothing is logged and the message is not
    among the failures; the message never counts as failed; alone it gives
    the status 200; and anywhere in a batch it changes neither the response
    nor the world. *)
Theorem message_without_records_is_skipped
    (unquote_plus : string -> string) (sqs_msg : sqs_message)
    (st : world * list string) (w : world) (before after : list sqs_message) :
  sqs_body sqs_msg = None ->
  process_message unquote_plus st sqs_msg = st /\
  ~ message_failed unquote_plus w sqs_msg /\
  lambda_handler unquote_plus [sqs_msg] w
    = (w, {| statusCode := 200; batchItemFailures := None |}) /\
  lambda_handler unquote_plus (before ++ sqs_msg :: after) w
    = lambda_handler unquote_plus (before ++ after) w.
Proof.
  intros Hbody.
  assert (Hskip : forall st', process_message unquote_plus st' sqs_msg = st').
  { intros st'. unfold process_message. by rewrite Hbody. }
  split_and!.
  - apply Hskip.
  - unfold message_failed. rewrite Hbody. tauto.
  - unfold lambda_handler. cbn [foldl]. by rewrite Hskip.
  - unfold lambda_handler. rewrite !foldl_app. cbn [foldl]. by rewrite Hskip.
Qed.

Lemma message_without_records_is_skipped_witness :
  lambda_handler unquote_plain [Examples.test_event] Examples.versioned_world
    = (Examples.versioned_world, {| statusCode := 200; batchItemFailures := None |}) /\
  lambda_handler unquote_plain (Examples.test_event :: Examples.batch_of_three)
                 Examples.versioned_world
    = lambda_handler unquote_plain Examples.batch_of_three Examples.versioned_world.
Proof.
  destruct (message_without_records_is_skipped unquote_plain Examples.test_event
              (Examples.versioned_world, []) Examples.versioned_world
              [] Examples.batch_of_three)
    as (_ & _ & Halone & Hbatch).
  - reflexivity.
  - split; [exact Halone|exact Hbatch].
Defined.




(** X9. A second delivery of the event of a rewritten version. After the
    rewrite of a version (S3 naming the copy with another id), a run for the
    same version does not find it: [get_object] raises NoSuchVersion and the
    run changes nothing, so the message of a redelivered event fails. *)
Lemma redelivered_version_raises
    (w : world) (bucket_name object_name v p : string)
    (o : s3_version) (r : mapping_item) :
  v <> "" ->
  lookup_object (s3_objects w) bucket_name object_name (Some v) = inr o ->
  longest_stored_prefix (ddb_mapping w) bucket_name object_name p r ->
  compliant o r = false ->
  version_ids w (copies w) <> v ->
  let w' := (fix_encryption_if_incorrect bucket_name object_name (Some v) w).1 in
  fix_encryption_if_incorrect bucket_name object_name (Some v) w'
  = (w', inl NoSuchVersion).
Proof.
  intros Hv Hget Hlong Hmis Hfresh w'. apply fix_raises.
  unfold requested. rewrite (truthy_Some _ Hv). simpl fmt. subst w'.
  pose proof (resolver_Some _ _ _ _ _ Hlong) as Hres.
  pose proof (fix_versioned _ _ _ _ _ _ (truthy_Some _ Hv) Hget Hres Hmis) as Hrun.
  cbv zeta in Hrun. rewrite Hrun. cbn [fst].
  destruct (lookup_object_Some_inv _ _ _ _ _ Hget) as [vs Hvs].
  autorewrite with world. rewrite Hvs. change (default [] (Some vs)) with vs.
  match goal with |- context [put_version ?new vs] =>
    by destruct (lookup_after_replace (s3_objects w) bucket_name object_name v vs
                   new Hvs Hfresh) as (_ & _ & Hold & _) end.
Qed.

(** * More of the custom resource *)

Module LifecycleFacts.
Import DdbCustomResource CustomResourceFacts.

(** The loops of the custom resource return: the one exception of
    [update_item] is caught. *)
Lemma insert_ddb_items_cons (b p : string) (e : mapping_entry)
    (md : mapping_data_t) (w : world) :
  insert_ddb_items b ((p, e) :: md) w =
  insert_ddb_items b md
    (mapping_written
       (MappingPutItem b p (upserted None e (clock w (ticks w))))
       (insert (b, p) (upserted None e (clock w (ticks w)))) (tick w)).
Proof. reflexivity. Qed.

Lemma insert_ddb_items_spec (b : string) (md : mapping_data_t) :
  NoDup md.*1 ->
  forall w : world,
    let run := insert_ddb_items b md w in
    run.2 = inr tt /\
    s3_objects run.1 = s3_objects w /\
    ddb_log run.1 = ddb_log w /\
    (forall key, key.1 <> b \/ key.2 ∉ md.*1 ->
                 ddb_mapping run.1 !! key = ddb_mapping w !! key) /\
    (forall i p e, md !! i = Some (p, e) ->
       ddb_mapping run.1 !! (b, p) = Some (upserted None e (clock w (ticks w + i)))) /\
    calls run.1 =
      calls w ++ imap (fun i pe => MappingPutItem b pe.1
                         (upserted None pe.2 (clock w (ticks w + i)))) md.
Proof.
  induction md as [|[p e] md IH]; intros Hnd w.
  - cbv zeta. simpl. split_and!; try done. by rewrite app_nil_r.
  - cbv zeta. rewrite insert_ddb_items_cons.
    apply NoDup_cons in Hnd as [Hp Hnd].
    match goal with |- context [insert_ddb_items b md ?w1] =>
      destruct (IH Hnd w1) as (Hret & Hs3 & Hlog & Hframe & Hitems & Hcalls) end.
    autorewrite with world in *.
    split_and!.
    + done.
    + done.
    + done.
    + intros key Hkey. rewrite Hframe.
      * apply lookup_insert_ne. intros <-. simpl in Hkey.
        destruct Hkey as [?|Hkey]; [done|]. apply Hkey. simpl. left.
      * simpl in Hkey. rewrite not_elem_of_cons in Hkey. tauto.
    + intros [|i] q e' Hi; simpl in Hi.
      * injection Hi as -> ->. rewrite Hframe by (by right).
        rewrite lookup_insert_eq. by rewrite Nat.add_0_r.
      * rewrite (Hitems i q e' Hi). do 3 f_equal. lia.
    + rewrite Hcalls, <- app_assoc. simpl. rewrite Nat.add_0_r. do 2 f_equal.
      apply imap_ext. intros i [q e'] _. simpl. do 3 f_equal. lia.
Qed.

Lemma update_ddb_items_returns (b : string) (md : mapping_data_t) :
  forall w : world, (update_ddb_items b md w).2 = inr tt.
Proof.
  induction md as [|[p e] md IH]; intros w; [done|].
  by rewrite update_ddb_items_cons.
Qed.

Lemma insert_ddb_items_returns (b : string) (md : mapping_data_t) :
  forall w : world, (insert_ddb_items b md w).2 = inr tt.
Proof.
  induction md as [|[p e] md IH]; intros w; [done|].
  by rewrite insert_ddb_items_cons.
Qed.

Lemma delete_each_cons (item : string * string) (items : list (string * string))
    (w : world) :
  delete_each (item :: items) w =
  delete_each items (mapping_written (MappingDeleteItem item.1 item.2) (delete item) w).
Proof. reflexivity. Qed.

(** The loop of [delete_ddb_items]. *)
Lemma delete_each_spec (items : list (string * string)) :
  forall w : world,
    let run := delete_each items w in
    run.2 = inr tt /\
    s3_objects run.1 = s3_objects w /\
    ddb_log run.1 = ddb_log w /\
    clock run.1 = clock w /\
    ticks run.1 = ticks w /\
    (forall key, ddb_mapping run.1 !! key =
                 if decide (key ∈ items) then None else ddb_mapping w !! key) /\
    calls run.1 =
      calls w ++ ((fun key : string * string => MappingDeleteItem key.1 key.2) <$> items).
Proof.
  induction items as [|item items IH]; intros w.
  - cbv zeta. simpl. split_and!; try done.
    all: try (intros key; destruct (decide _) as [H|_];
              [by apply elem_of_nil in H|done]).
    by rewrite app_nil_r.
  - cbv zeta. rewrite delete_each_cons.
    match goal with |- context [delete_each items ?w1] =>
      destruct (IH w1) as (Hret & Hs3 & Hlog & Hclock & Hticks & Hmap & Hcalls) end.
    autorewrite with world in *. split_and!; try done.
    + intros key. rewrite Hmap.
      destruct (decide (key ∈ items)) as [Hin|Hin].
      * rewrite decide_True; [done|]. apply elem_of_cons. by right.
      * destruct (decide (key ∈ item :: items)) as [Hin'|Hin'].
        -- apply elem_of_cons in Hin' as [->|?]; [|done]. apply lookup_delete_eq.
        -- apply lookup_delete_ne. intros <-. apply Hin'. apply elem_of_cons. by left.
    + rewrite Hcalls, <- app_assoc. done.
Qed.

Lemma query_table_NoDup (b : string) (w : world) keys :
  query_table b w = (w, inr keys) -> NoDup keys.
Proof.
  intros [= <-]. rewrite merge_sort_Permutation.
  apply NoDup_filter, NoDup_fst_map_to_list.
Qed.

Lemma on_update_returns (ev : event_t) (w : world) (id : string) :
  PhysicalResourceId ev = Some id -> (on_update ev w).2 = inr id.
Proof.
  intros Hid. unfold on_update, physical_resource_id. rewrite Hid.
  unfold bind at 1, ret at 1. unfold bind at 1.
  pose proof (update_ddb_items_returns (BucketName (props ev))
                (MappingData (props ev)) w) as Hret.
  destruct (update_ddb_items _ _ w) as [w1 res1]. simpl in Hret. subst res1.
  unfold delete_missing_ddb_items, bind at 1. unfold bind at 1.
  destruct (query_table_run (BucketName (props ev)) w1) as (keys & -> & _).
  destruct (delete_missing_frame (MappingData (props ev)) keys w1) as (Hret2 & _).
  destruct (delete_missing _ keys w1) as [w2 res2]. simpl in Hret2. by subst res2.
Qed.

End LifecycleFacts.

Import LifecycleFacts.

(** X1. Create. For mapping data without a repeated prefix [on_create]
    returns the id CRToManageMappingForBucket followed by the bucket name
    and puts one item for each entry, in the order of the mapping data: the
    item has the key and the flag of the entry and the time of its write as
    both timestamps, whatever the table held under that prefix before (an
    older [insert_ts] is replaced). Items under other prefixes or other
    buckets are as before, also the items of the bucket that the mapping
    data does not name. *)
Theorem create_puts_every_entry (ev : event_t) (w : world) :
  let b := BucketName (props ev) in
  let md := MappingData (props ev) in
  NoDup md.*1 ->
  let run := on_create ev w in
  run.2 = inr ("CRToManageMappingForBucket" +:+ b) /\
  (forall i p e, md !! i = Some (p, e) ->
     ddb_mapping run.1 !! (b, p) =
     Some {| kms_key_arn := entry_kms_key_arn e;
             dual_layer_encryption := String.eqb (entry_dual_layer_encryption e) "true";
             insert_ts := clock w (ticks w + i);
             last_update_ts := clock w (ticks w + i) |}) /\
  (forall key, key.1 <> b \/ key.2 ∉ md.*1 ->
     ddb_mapping run.1 !! key = ddb_mapping w !! key) /\
  calls run.1 =
    calls w ++ imap (fun i pe => MappingPutItem b pe.1
                       (upserted None pe.2 (clock w (ticks w + i)))) md /\
  s3_objects run.1 = s3_objects w /\
  ddb_log run.1 = ddb_log w.
Proof.
  intros b md Hnd run. subst run. unfold on_create. fold b md. unfold bind.
  destruct (insert_ddb_items_spec b md Hnd w)
    as (Hret & Hs3 & Hlog & Hframe & Hitems & Hcalls).
  destruct (insert_ddb_items b md w) as [w1 res]. simpl in *. subst res. simpl.
  by split_and!.
Qed.

Lemma create_puts_every_entry_witness :
  let run := on_create (Examples.create_event Examples.minimal_diff)
                       Examples.reconcile_world in
  ddb_mapping run.1 !! ("bkt", "p1")
    = Some (MappingItem "k1" false "2024-06-01 10:00:00:000001+0000"
                        "2024-06-01 10:00:00:000001+0000") /\
  ddb_mapping run.1 !! ("bkt", "p2") = Some (Examples.policy "k2" false).
Proof.
  cbv zeta.
  destruct (create_puts_every_entry (Examples.create_event Examples.minimal_diff)
              Examples.reconcile_world)
    as (_ & Hitems & Hframe & _).
  - refine (bool_decide_unpack _ _). vm_compute. exact I.
  - split.
    + exact (Hitems 0 "p1" (MappingEntry "k1" "false") eq_refl).
    + rewrite (Hframe ("bkt", "p2")); [vm_compute; reflexivity|].
      right. simpl. rewrite !not_elem_of_cons. split_and!; try discriminate.
      apply not_elem_of_nil.
Defined.

(** X2. Delete. With its PhysicalResourceId, [on_delete] returns that id;
    afterwards the mapping table has no item of the bucket and the items of
    the other buckets are as before; the writes it makes are the delete of
    each item of the bucket, once, and nothing else (the query that lists
    the items is no write and is not in the trace of the writes). A second
    [on_delete] finds no item: it deletes nothing, leaves the world as it
    is and returns the id. *)
Theorem delete_removes_the_items_of_the_bucket
    (ev : event_t) (w : world) (physical_id : string) :
  PhysicalResourceId ev = Some physical_id ->
  let b := BucketName (props ev) in
  let run := on_delete ev w in
  run.2 = inr physical_id /\
  (forall p, ddb_mapping run.1 !! (b, p) = None) /\
  (forall key, key.1 <> b -> ddb_mapping run.1 !! key = ddb_mapping w !! key) /\
  (exists keys,
     calls run.1 =
       calls w ++ ((fun key : string * string => MappingDeleteItem key.1 key.2) <$> keys) /\
     NoDup keys /\
     forall key, key ∈ keys <-> key.1 = b /\ is_Some (ddb_mapping w !! key)) /\
  s3_objects run.1 = s3_objects w /\
  ddb_log run.1 = ddb_log w /\
  on_delete ev run.1 = (run.1, inr physical_id).
Proof.
  intros Hid b run. subst run.
  assert (Hrun : forall w0, exists keys,
            query_table b w0 = (w0, inr keys) /\
            on_delete ev w0 = ((delete_each keys w0).1, inr physical_id)).
  { intros w0. unfold on_delete, physical_resource_id. rewrite Hid. fold b.
    unfold bind at 1, ret at 1. unfold bind at 1, delete_ddb_items, bind at 1.
    destruct (query_table_run b w0) as (keys & Hq & _). exists keys.
    split; [done|]. rewrite Hq.
    destruct (delete_each_spec keys w0) as (Hret & _).
    destruct (delete_each keys w0) as [w1 res]. simpl in *. by subst res. }
  destruct (Hrun w) as (keys & Hq & ->). cbn [fst snd].
  destruct (query_table_run b w) as (keys' & Hq' & Hkeys).
  rewrite Hq in Hq'. injection Hq' as <-.
  destruct (delete_each_spec keys w) as (_ & Hs3 & Hlog & _ & _ & Hmap & Hcalls).
  assert (Hgone : forall p, ddb_mapping (delete_each keys w).1 !! (b, p) = None).
  { intros p. rewrite Hmap. destruct (decide _) as [|Hno]; [done|].
    destruct (ddb_mapping w !! (b, p)) as [r|] eqn:Hr; [|done].
    destruct Hno. apply Hkeys. split; [done|]. by rewrite Hr. }
  split_and!; [done|done| |by eauto using query_table_NoDup|done|done|].
  - intros key Hkey. rewrite Hmap, decide_False; [done|].
    intros Hin%Hkeys. by destruct Hin.
  - destruct (Hrun (delete_each keys w).1) as (keys2 & Hq2 & ->).
    destruct (query_table_run b (delete_each keys w).1) as (keys2' & Hq2' & Hkeys2).
    rewrite Hq2 in Hq2'. injection Hq2' as <-.
    destruct keys2 as [|[b' p] keys2]; [done|].
    destruct (proj1 (Hkeys2 (b', p))) as [Hb Hsome]; [by left|].
    simpl in Hb. subst b'. rewrite Hgone in Hsome. by destruct Hsome.
Qed.

Lemma delete_removes_the_items_of_the_bucket_witness :
  let run := on_delete Examples.delete_event Examples.reconcile_world in
  ddb_mapping run.1 !! ("bkt", "p1") = None /\
  ddb_mapping run.1 !! ("other", "p2") = Some (Examples.policy "k9" true).
Proof.
  cbv zeta.
  destruct (delete_removes_the_items_of_the_bucket Examples.delete_event
              Examples.reconcile_world "CRToManageMappingForBucketbkt")
    as (_ & Hgone & Hframe & _).
  - reflexivity.
  - split; [exact (Hgone "p1")|].
    rewrite (Hframe ("other", "p2")); [vm_compute; reflexivity|discriminate].
Defined.

Module ReconcileAgainFacts.
Import DdbCustomResource CustomResourceFacts LifecycleFacts.

(** [on_update] on a table whose records of the mapping data are the
    desired ones already: it writes no record of the mapping data; its
    writes are the deletions of the other items of the bucket. *)
Lemma on_update_of_desired (ev : event_t) (w : world) (id : string) :
  let b := BucketName (props ev) in
  let md := MappingData (props ev) in
  NoDup md.*1 ->
  PhysicalResourceId ev = Some id ->
  (forall i p e, md !! i = Some (p, e) ->
     exists r, ddb_mapping w !! (b, p) = Some r /\ desired e r) ->
  let run := on_update ev w in
  run.2 = inr id /\
  s3_objects run.1 = s3_objects w /\
  (forall i p e, md !! i = Some (p, e) ->
     ddb_mapping run.1 !! (b, p) = ddb_mapping w !! (b, p)) /\
  (forall p, p ∉ md.*1 -> ddb_mapping run.1 !! (b, p) = None) /\
  (forall key, key.1 <> b -> ddb_mapping run.1 !! key = ddb_mapping w !! key) /\
  exists cs, calls run.1 = calls w ++ cs /\
    forall c, c ∈ cs <->
      exists p, (p ∉ md.*1) /\ is_Some (ddb_mapping w !! (b, p)) /\
                c = MappingDeleteItem b p.
Proof.
  intros b md Hnd Hid Hdes run. subst run.
  pose proof (on_update_returns ev w id Hid) as Hret.
  destruct (on_update ev w) as [w' res] eqn:Hrun. simpl in Hret. subst res.
  destruct (on_update_spec ev w w' id Hnd Hrun)
    as (_ & Hs3 & _ & Hitems & Hgone & Hframe & cs1 & cs2 & Hcalls & Hcs1 & Hcs2).
  fold b md in Hitems, Hgone, Hframe, Hcs1, Hcs2. cbn [fst snd].
  assert (Hnil : cs1 = []).
  { destruct cs1 as [|c cs1]; [done|]. exfalso.
    destruct (Hcs1 c) as (i & p & e & Hi & Hw & _); [by left|].
    destruct (Hdes i p e Hi) as (r & Hr & Hd).
    rewrite Hr in Hw. simpl in Hw.
    apply up_to_date_desired in Hd. by rewrite Hd in Hw. }
  subst cs1. split_and!; [done|done| |done|done|by exists cs2].
  intros i p e Hi. rewrite (Hitems i p e Hi).
  destruct (Hdes i p e Hi) as (r & Hr & Hd). rewrite Hr.
  unfold reconciled, writes. apply up_to_date_desired in Hd. by rewrite Hd.
Qed.

Lemma no_request (cs : list api_call) (P : api_call -> Prop) :
  (forall c, c ∈ cs <-> P c) -> (forall c, ~ P c) -> cs = [].
Proof.
  intros Hiff Hno. destruct cs as [|c cs]; [done|].
  destruct (Hno c). apply Hiff. by left.
Qed.

Lemma lookup_index (md : mapping_data_t) (p : string) :
  p ∈ md.*1 -> exists i e, md !! i = Some (p, e).
Proof.
  intros ([q e] & -> & Hin)%list_elem_of_fmap.
  apply list_elem_of_lookup_1 in Hin as [i Hi]. eauto.
Qed.

Lemma on_create_world (ev : event_t) (w : world) :
  (on_create ev w).1 =
  (insert_ddb_items (BucketName (props ev)) (MappingData (props ev)) w).1.
Proof.
  unfold on_create, bind.
  by destruct (insert_ddb_items _ _ w) as [w1 [e|[]]].
Qed.

End ReconcileAgainFacts.

Import ReconcileAgainFacts.

(** X3. Reconcile again. After an [on_update] that returned, a second
    [on_update] with the same mapping data (without a repeated prefix)
    returns and no write of it takes effect: the trace of the writes, the
    mapping table and S3 are as the first one left them, so no record is
    rewritten and no [last_update_ts] moves. (The updates it sends and
    DynamoDB turns down, and its query, are no writes and are not in the
    trace.) *)
Theorem reconcile_again_writes_nothing (ev : event_t) (w : world) (physical_id : string) :
  NoDup (MappingData (props ev)).*1 ->
  PhysicalResourceId ev = Some physical_id ->
  let w1 := (on_update ev w).1 in
  let run := on_update ev w1 in
  run.2 = inr physical_id /\
  ddb_mapping run.1 = ddb_mapping w1 /\
  calls run.1 = calls w1 /\
  s3_objects run.1 = s3_objects w1.
Proof.
  intros Hnd Hid w1 run. subst run.
  set (b := BucketName (props ev)). set (md := MappingData (props ev)).
  pose proof (on_update_returns ev w physical_id Hid) as Hret.
  assert (Hrun : on_update ev w = (w1, inr physical_id)).
  { subst w1. destruct (on_update ev w) as [w' res]. simpl in *. by subst res. }
  destruct (on_update_spec ev w w1 physical_id Hnd Hrun)
    as (_ & _ & _ & Hitems & Hgone & _).
  fold b md in Hitems, Hgone.
  destruct (on_update_of_desired ev w1 physical_id Hnd Hid)
    as (Hret2 & Hs3 & Hsame & Hgone2 & Hframe2 & cs & Hcalls & Hcs).
  { fold b md. intros i p e Hi. rewrite (Hitems i p e Hi). apply reconciled_desired. }
  fold b md in Hsame, Hgone2, Hframe2, Hcs.
  split_and!; [done| | |done].
  - apply map_eq. intros [b' p]. destruct (decide (b' = b)) as [->|Hb].
    + destruct (decide (p ∈ md.*1)) as [Hp|Hp].
      * destruct (lookup_index md p Hp) as (i & e & Hi). by apply (Hsame i p e).
      * by rewrite Hgone2, Hgone.
    + by apply Hframe2.
  - rewrite Hcalls, (no_request cs _ Hcs); [by rewrite app_nil_r|].
    intros c (p & Hp & Hsome & _). rewrite (Hgone p Hp) in Hsome. by destruct Hsome.
Qed.

Lemma reconcile_again_writes_nothing_witness :
  let w1 := (on_update (Examples.update_event Examples.minimal_diff)
                       Examples.reconcile_world).1 in
  calls (on_update (Examples.update_event Examples.minimal_diff) w1).1 = calls w1.
Proof.
  cbv zeta.
  destruct (reconcile_again_writes_nothing
              (Examples.update_event Examples.minimal_diff)
              Examples.reconcile_world "CRToManageMappingForBucketbkt")
    as (_ & _ & Hcalls & _).
  - refine (bool_decide_unpack _ _). vm_compute. exact I.
  - reflexivity.
  - exact Hcalls.
Defined.

(** X4. Create, then update. After [on_create], an [on_update] for the
    same bucket and the same mapping data (without a repeated prefix)
    rewrites none of the records [on_create] put: they keep both
    timestamps. The writes of it that take effect are the deletes of the
    items of the bucket that the mapping data does not name and that were
    in the table before the create; where there were none, no write of it
    takes effect and the table is as [on_create] left it. (The updates it
    sends and DynamoDB turns down, and its query, are no writes and are not
    in the trace.) *)
Theorem update_after_create_keeps_the_records
    (ev ev' : event_t) (w : world) (physical_id : string) :
  let b := BucketName (props ev) in
  let md := MappingData (props ev) in
  NoDup md.*1 ->
  props ev' = props ev ->
  PhysicalResourceId ev' = Some physical_id ->
  let w1 := (on_create ev w).1 in
  let run := on_update ev' w1 in
  run.2 = inr physical_id /\
  (forall i p e, md !! i = Some (p, e) ->
     ddb_mapping run.1 !! (b, p) =
     Some (upserted None e (clock w (ticks w + i)))) /\
  (exists cs, calls run.1 = calls w1 ++ cs /\
     forall c, c ∈ cs <->
       exists p, (p ∉ md.*1) /\ is_Some (ddb_mapping w !! (b, p)) /\
                 c = MappingDeleteItem b p) /\
  ((forall p, p ∉ md.*1 -> ddb_mapping w !! (b, p) = None) ->
   calls run.1 = calls w1 /\ ddb_mapping run.1 = ddb_mapping w1).
Proof.
  intros b md Hnd Hprops Hid w1 run. subst run w1.
  rewrite on_create_world. fold b md.
  destruct (insert_ddb_items_spec b md Hnd w)
    as (Hret & _ & _ & Hframe & Hitems & _).
  destruct (insert_ddb_items b md w) as [w1 res]. simpl in Hret, Hframe, Hitems.
  subst res. cbn [fst snd].
  assert (Hnd' : NoDup (MappingData (props ev')).*1) by by rewrite Hprops.
  destruct (on_update_of_desired ev' w1 physical_id Hnd' Hid)
    as (Hret2 & _ & Hsame & Hgone2 & Hframe2 & cs & Hcalls & Hcs).
  { rewrite Hprops. fold b md. intros i p e Hi. rewrite (Hitems i p e Hi).
    eexists. split; [done|]. apply upserted_desired. }
  rewrite Hprops in Hsame, Hgone2, Hframe2, Hcs. fold b md in Hsame, Hgone2, Hframe2, Hcs.
  assert (Hcs' : forall c, c ∈ cs <->
            exists p, (p ∉ md.*1) /\ is_Some (ddb_mapping w !! (b, p)) /\
                      c = MappingDeleteItem b p).
  { intros c. rewrite Hcs. split; intros (p & Hp & Hsome & ->); exists p;
      (split_and!; [done| |done]).
    - rewrite <- (Hframe (b, p)); [done|by right].
    - rewrite (Hframe (b, p)); [done|by right]. }
  split_and!.
  - done.
  - intros i p e Hi. by rewrite (Hsame i p e Hi), (Hitems i p e Hi).
  - by exists cs.
  - intros Hfresh.
    assert (cs = []) as ->.
    { apply (no_request cs _ Hcs'). intros c (p & Hp & Hsome & _).
      rewrite (Hfresh p Hp) in Hsome. by destruct Hsome. }
    split; [by rewrite Hcalls, app_nil_r|].
    apply map_eq. intros [b' p]. destruct (decide (b' = b)) as [->|Hb].
    + destruct (decide (p ∈ md.*1)) as [Hp|Hp].
      * destruct (lookup_index md p Hp) as (i & e & Hi). by apply (Hsame i p e).
      * rewrite (Hgone2 p Hp). rewrite (Hframe (b, p)); [|by right].
        by rewrite (Hfresh p Hp).
    + by apply Hframe2.
Qed.

Lemma update_after_create_keeps_the_records_witness :
  let w1 := (on_create (Examples.create_event Examples.minimal_diff)
                       Examples.reconcile_world).1 in
  let run := on_update (Examples.update_event Examples.minimal_diff) w1 in
  ddb_mapping run.1 !! ("bkt", "p3")
    = Some (MappingItem "k3" true "2024-06-01 10:00:00:000002+0000"
                        "2024-06-01 10:00:00:000002+0000").
Proof.
  cbv zeta.
  destruct (update_after_create_keeps_the_records
              (Examples.create_event Examples.minimal_diff)
              (Examples.update_event Examples.minimal_diff)
              Examples.reconcile_world "CRToManageMappingForBucketbkt")
    as (_ & Hitems & _).
  - refine (bool_decide_unpack _ _). vm_compute. exact I.
  - reflexivity.
  - reflexivity.
  - exact (Hitems 1 "p3" (MappingEntry "k3" "true") eq_refl).
Defined.

Module ReachFacts.
Import DdbCustomResource CustomResourceFacts LifecycleFacts.

Lemma confined_same_world {A} (b : string) (m : M A) :
  (forall w, s3_objects (m w).1 = s3_objects w /\ ddb_log (m w).1 = ddb_log w /\
             ddb_mapping (m w).1 = ddb_mapping w /\ calls (m w).1 = calls w) ->
  confined b m.
Proof.
  intros H w. destruct (H w) as (Hs3 & Hlog & Hmap & Hcalls).
  split_and!; [done|done|by intros; rewrite Hmap|].
  exists []. by rewrite app_nil_r.
Qed.

Lemma confined_ret {A} (b : string) (a : A) : confined b (ret a).
Proof. by apply confined_same_world. Qed.

Lemma confined_raise {A} (b : string) (e : exn) : confined b (@raise A e).
Proof. by apply confined_same_world. Qed.

Lemma confined_gets {A} (b : string) (f : world -> A) : confined b (gets f).
Proof. by apply confined_same_world. Qed.

Lemma confined_now (b : string) : confined b now.
Proof. by apply confined_same_world. Qed.

Lemma confined_step {A B} (b : string) (m : M A) (w : world) (w1 : world) (k : M B) :
  s3_objects w1 = s3_objects w ->
  ddb_log w1 = ddb_log w ->
  (forall key, key.1 <> b -> ddb_mapping w1 !! key = ddb_mapping w !! key) ->
  (exists cs, calls w1 = calls w ++ cs /\ Forall (call_on_bucket b) cs) ->
  confined b k ->
  s3_objects (k w1).1 = s3_objects w /\
  ddb_log (k w1).1 = ddb_log w /\
  (forall key, key.1 <> b -> ddb_mapping (k w1).1 !! key = ddb_mapping w !! key) /\
  exists cs, calls (k w1).1 = calls w ++ cs /\ Forall (call_on_bucket b) cs.
Proof.
  intros Hs3 Hlog Hmap (cs1 & Hcalls & Hall) Hk.
  destruct (Hk w1) as (Hs3' & Hlog' & Hmap' & cs2 & Hcalls' & Hall').
  split_and!; [congruence|congruence| |].
  - intros key Hkey. by rewrite Hmap', Hmap.
  - exists (cs1 ++ cs2). rewrite Hcalls', Hcalls, app_assoc. split; [done|].
    by apply Forall_app.
Qed.

Lemma confined_bind {A B} (b : string) (m : M A) (k : A -> M B) :
  confined b m -> (forall a, confined b (k a)) -> confined b (bind m k).
Proof.
  intros Hm Hk w. unfold bind. destruct (Hm w) as (Hs3 & Hlog & Hmap & Hcs).
  destruct (m w) as [w1 [e|a]]; simpl in *; [done|].
  by apply (confined_step b m w w1 (k a)).
Qed.

Lemma confined_try_except {A} (b : string) (m : M A) (h : exn -> M A) :
  confined b m -> (forall e, confined b (h e)) -> confined b (try_except m h).
Proof.
  intros Hm Hh w. unfold try_except. destruct (Hm w) as (Hs3 & Hlog & Hmap & Hcs).
  destruct (m w) as [w1 [e|a]]; simpl in *; [|done].
  by apply (confined_step b m w w1 (h e)).
Qed.

Lemma confined_mapping_written (b : string) (c : api_call) f :
  call_on_bucket b c ->
  (forall t key, key.1 <> b -> f t !! key = t !! key) ->
  confined b (modify (mapping_written c f)).
Proof.
  intros Hc Hf w. unfold modify. cbn [fst]. autorewrite with world.
  split_and!; [done|done|by intros; apply Hf|].
  exists [c]. split; [done|]. by constructor.
Qed.

Lemma confined_put_item (b p : string) (it : mapping_item) :
  confined b (put_item b p it).
Proof.
  apply confined_mapping_written; [done|].
  intros t key Hkey. apply lookup_insert_ne. by intros <-.
Qed.

Lemma confined_delete_item (b : string) (key : string * string) :
  key.1 = b -> confined b (delete_item key).
Proof.
  intros Hb. apply confined_mapping_written; [done|].
  intros t key' Hkey. apply lookup_delete_ne. by intros <-.
Qed.

Lemma confined_update_item (b p k : string) (d : bool) (t : string) :
  confined b (update_item b p k d t).
Proof.
  intros w. unfold update_item.
  assert (Hw : forall it, confined b
            (fun w => (mapping_written (MappingUpdateItem b p it)
                         (insert (b, p) it) w, @inr exn unit tt))).
  { intros it. apply (confined_mapping_written b (MappingUpdateItem b p it)); [done|].
    intros t' key Hkey. apply lookup_insert_ne. by intros <-. }
  destruct (ddb_mapping w !! (b, p)) as [r|]; [|apply Hw].
  destruct (_ || _); [apply Hw|]. by apply (confined_raise (A:=unit) b).
Qed.

Lemma confined_insert_ddb_items (b : string) (md : mapping_data_t) :
  confined b (insert_ddb_items b md).
Proof.
  induction md as [|[p e] md IH]; simpl; [apply confined_ret|].
  apply confined_bind; [apply confined_now|]. intros t.
  apply confined_bind; [apply confined_put_item|done].
Qed.

Lemma confined_update_ddb_items (b : string) (md : mapping_data_t) :
  confined b (update_ddb_items b md).
Proof.
  induction md as [|[p e] md IH]; simpl; [apply confined_ret|].
  apply confined_bind; [apply confined_now|]. intros t.
  apply confined_bind; [|done].
  apply confined_try_except; [apply confined_update_item|].
  intros []; first [apply confined_ret|apply confined_raise].
Qed.

Lemma confined_delete_each (b : string) (items : list (string * string)) :
  Forall (fun key => key.1 = b) items -> confined b (delete_each items).
Proof.
  induction 1 as [|item items Hb Hall IH]; simpl; [apply confined_ret|].
  apply confined_bind; [by apply confined_delete_item|done].
Qed.

Lemma confined_delete_missing (b : string) (md : mapping_data_t)
    (items : list (string * string)) :
  Forall (fun key => key.1 = b) items -> confined b (delete_missing md items).
Proof.
  induction 1 as [|item items Hb Hall IH]; simpl; [apply confined_ret|].
  apply confined_bind; [|done].
  destruct (negb _); [by apply confined_delete_item|apply confined_ret].
Qed.

(** The items [query_table] returns are items of the bucket. *)
Lemma confined_after_query {A} (b : string) (k : list (string * string) -> M A) :
  (forall items, Forall (fun key => key.1 = b) items -> confined b (k items)) ->
  confined b (bind (query_table b) k).
Proof.
  intros Hk w. unfold bind.
  destruct (query_table_run b w) as (keys & -> & Hkeys).
  apply Hk. apply Forall_forall. intros key Hin. by apply Hkeys in Hin as [? _].
Qed.

Lemma confined_physical_resource_id (b : string) (ev : event_t) :
  confined b (physical_resource_id ev).
Proof.
  unfold physical_resource_id.
  destruct (PhysicalResourceId ev); [apply confined_ret|apply confined_raise].
Qed.

Lemma confined_on_event (ev : event_t) :
  confined (BucketName (props ev)) (on_event ev).
Proof.
  unfold on_event, on_create, on_update, on_delete,
    delete_ddb_items, delete_missing_ddb_items.
  repeat match goal with
         | |- confined _ (if ?c then _ else _) => destruct c
         | |- confined _ (bind (query_table _) _) => apply confined_after_query
         | |- confined _ (bind _ _) => apply confined_bind
         | |- forall _, _ => intros ?
         | |- _ => first [ apply confined_insert_ddb_items
                         | apply confined_update_ddb_items
                         | by apply confined_delete_each
                         | by apply confined_delete_missing
                         | apply confined_physical_resource_id
                         | apply confined_ret | apply confined_raise ]
         end.
Qed.

Lemma on_delete_returns (ev : event_t) (w : world) (id : string) :
  PhysicalResourceId ev = Some id -> (on_delete ev w).2 = inr id.
Proof.
  intros Hid. unfold on_delete, physical_resource_id. rewrite Hid.
  unfold bind at 1, ret at 1. unfold bind at 1, delete_ddb_items, bind at 1.
  destruct (query_table_run (BucketName (props ev)) w) as (keys & -> & _).
  destruct (delete_each_spec keys w) as (Hret & _).
  destruct (delete_each keys w) as [w1 res]. simpl in *. by subst res.
Qed.

Lemma on_create_returns (ev : event_t) (w : world) :
  exists id, (on_create ev w).2 = inr id.
Proof.
  unfold on_create, bind.
  pose proof (insert_ddb_items_returns (BucketName (props ev))
                (MappingData (props ev)) w) as Hret.
  destruct (insert_ddb_items _ _ w) as [w1 res]. simpl in Hret. subst res.
  by eexists.
Qed.

End ReachFacts.

Import ReachFacts.


(** X6. Events the custom resource rejects. When the request type of the
    event is none of Create, Update and Delete, [on_event] raises the
    exception of the invalid request type; when an Update or a Delete event
    has no PhysicalResourceId, it raises the KeyError of that key. Both
    exceptions come before any request: the world is as it was. *)
Theorem rejected_event_changes_nothing (ev : event_t) (w : world) :
  (RequestType ev <> "Create" -> RequestType ev <> "Update" ->
   RequestType ev <> "Delete" ->
   on_event ev w = (w, inl (InvalidRequestType (RequestType ev)))) /\
  (RequestType ev = "Update" \/ RequestType ev = "Delete" ->
   PhysicalResourceId ev = None ->
   on_event ev w = (w, inl (KeyError "PhysicalResourceId"))).
Proof.
  unfold on_event. split.
  - intros Hc Hu Hd. apply String.eqb_neq in Hc, Hu, Hd. by rewrite Hc, Hu, Hd.
  - intros [Hr|Hr] Hid; rewrite Hr; simpl;
      unfold on_update, on_delete, physical_resource_id; by rewrite Hid.
Qed.

Lemma rejected_event_changes_nothing_witness :
  on_event {| RequestType := "Replace"; PhysicalResourceId := None;
              props := props (Examples.create_event Examples.minimal_diff) |}
           Examples.reconcile_world
  = (Examples.reconcile_world, inl (InvalidRequestType "Replace")) /\
  on_event {| RequestType := "Update"; PhysicalResourceId := None;
              props := props (Examples.create_event Examples.minimal_diff) |}
           Examples.reconcile_world
  = (Examples.reconcile_world, inl (KeyError "PhysicalResourceId")).
Proof.
  split.
  - apply (rejected_event_changes_nothing
             {| RequestType := "Replace"; PhysicalResourceId := None;
                props := props (Examples.create_event Examples.minimal_diff) |});
      discriminate.
  - apply (rejected_event_changes_nothing
             {| RequestType := "Update"; PhysicalResourceId := None;
                props := props (Examples.create_event Examples.minimal_diff) |});
      [by left|reflexivity].
Defined.

(** * More of the remediation *)

Module RunFacts.
Import FixEncryption.

Lemma compliant_new (o : s3_version) (r : mapping_item) (nv : string) :
  compliant {| version_id := nv; sse_type := sse_type_of (dual_layer_encryption r);
               sse_kms_key_id := Some (kms_key_arn r); body := body o |} r = true.
Proof. unfold compliant. simpl. by rewrite !String.eqb_refl. Qed.

Lemma lookup_latest_put (s : gmap (string * string) (list s3_version))
    (b k : string) (new : s3_version) (vs : list s3_version) :
  lookup_object (<[(b, k) := put_version new vs]> s) b k None = inr new.
Proof. unfold lookup_object. by rewrite lookup_insert_eq. Qed.

Lemma requested_falsy (vid : option string) : truthy vid = false -> requested vid = None.
Proof. unfold requested. by intros ->. Qed.

(** A run that found its object returns, and changes no other object. *)
Lemma fix_found (b k : string) (vid : option string) (w : world) (o : s3_version) :
  lookup_object (s3_objects w) b k (requested vid) = inr o ->
  (fix_encryption_if_incorrect b k vid w).2 = inr tt /\
  forall key, key <> (b, k) ->
    s3_objects (fix_encryption_if_incorrect b k vid w).1 !! key = s3_objects w !! key.
Proof.
  intros Hget.
  pose proof (resolver_cases (ddb_mapping w) b k) as Hc.
  destruct (get_kms_key_info_for_s3_prefix (ddb_mapping w) b k) as [info|] eqn:Hres.
  2:{ by rewrite (fix_not_configured _ _ _ _ _ Hget Hres). }
  destruct Hc as (p & r & _ & _ & _ & -> & _).
  destruct (compliant o r) eqn:Hco.
  { by rewrite (fix_compliant _ _ _ _ _ _ Hget Hres Hco). }
  destruct (truthy vid) eqn:Hv.
  - destruct vid as [v|]; [|discriminate].
    assert (Hreq : requested (Some v) = Some v) by (unfold requested; by rewrite Hv).
    rewrite Hreq in Hget.
    pose proof (fix_versioned _ _ _ _ _ _ Hv Hget Hres Hco) as Hrun.
    cbv zeta in Hrun. rewrite Hrun. cbn [fst snd]. split; [done|].
    intros key Hkey. autorewrite with world.
    by rewrite lookup_alter_ne, lookup_insert_ne.
  - rewrite (requested_falsy _ Hv) in Hget.
    pose proof (fix_unversioned _ _ _ _ _ _ Hv Hget Hres Hco) as Hrun.
    cbv zeta in Hrun. rewrite Hrun. cbn [fst snd]. split; [done|].
    intros key Hkey. autorewrite with world. by rewrite lookup_insert_ne.
Qed.

Lemma lookup_object_error s (b k : string) (version : option string) (e : exn) :
  lookup_object s b k version = inl e -> e = NoSuchKey \/ e = NoSuchVersion.
Proof.
  unfold lookup_object. destruct (s !! (b, k)) as [vs|]; [|intros [= <-]; auto].
  destruct version as [v|].
  - destruct (find_version vs v); [discriminate|intros [= <-]; auto].
  - destruct vs; [intros [= <-]; auto|discriminate].
Qed.

(** A run changes no object but its own, and leaves the mapping table. *)
Lemma fix_frame (b k : string) (vid : option string) (w : world) :
  ddb_mapping (fix_encryption_if_incorrect b k vid w).1 = ddb_mapping w /\
  forall key, key <> (b, k) ->
    s3_objects (fix_encryption_if_incorrect b k vid w).1 !! key = s3_objects w !! key.
Proof.
  split; [by destruct (AuditFacts.fix_advances b k vid w)|].
  destruct (lookup_object (s3_objects w) b k (requested vid)) as [e|o] eqn:Hget.
  - by rewrite (fix_raises _ _ _ _ _ Hget).
  - by destruct (fix_found _ _ _ _ _ Hget).
Qed.

End RunFacts.

Import RunFacts.

(** X7. Rewrite of an object without a version. When the event names no
    version (or an empty one) and the encryption of the latest version of
    the object is not the one of its record, the run copies the object onto
    itself with the encryption type and the key of the record: the latest
    version then has that encryption and the body it had, every other
    object is as before, and the requests are the copy and the put of one
    log entry without a new version id. A second run on the world the first
    one left finds the object compliant: it returns, leaves the objects as
    they are and only puts the entry with action None and the reason that
    the object already uses the correct key. *)
Theorem unversioned_rewrite_then_nothing_to_do
    (w : world) (bucket_name object_name p : string) (version_id : option string)
    (o : s3_version) (r : mapping_item) :
  truthy version_id = false ->
  lookup_object (s3_objects w) bucket_name object_name None = inr o ->
  longest_stored_prefix (ddb_mapping w) bucket_name object_name p r ->
  ~ (sse_type o = sse_type_of (dual_layer_encryption r) /\
     sse_kms_key_id o = Some (kms_key_arn r)) ->
  let run := fix_encryption_if_incorrect bucket_name object_name version_id w in
  let new_sse := sse_type_of (dual_layer_encryption r) in
  let new := {| version_id := version_ids w (copies w); sse_type := new_sse;
                sse_kms_key_id := Some (kms_key_arn r); body := body o |} in
  let path := "s3://" +:+ bucket_name +:+ "/" +:+ object_name in
  let it := log_entry (sse_type o) (sse_kms_key_id o) new_sse (kms_key_arn r)
              "Initiated copy with the right key" (mismatch_reason o r) None in
  run.2 = inr tt /\
  lookup_object (s3_objects run.1) bucket_name object_name None = inr new /\
  (forall key, key <> (bucket_name, object_name) ->
     s3_objects run.1 !! key = s3_objects w !! key) /\
  calls run.1 =
    calls w ++ [S3Copy bucket_name object_name new_sse (kms_key_arn r);
                LogPutItem path (clock w (ticks w)) it] /\
  new_version_id it = None /\
  (let again := fix_encryption_if_incorrect bucket_name object_name version_id run.1 in
   again.2 = inr tt /\
   s3_objects again.1 = s3_objects run.1 /\
   calls again.1 =
     calls run.1 ++
     [LogPutItem path (clock w (S (ticks w)))
        (log_entry new_sse (Some (kms_key_arn r)) new_sse (kms_key_arn r)
           "None" "Already using the correct key" None)]).
Proof.
  intros Hv Hget Hlong Hmis. cbv zeta.
  apply compliant_false in Hmis.
  pose proof (resolver_Some _ _ _ _ _ Hlong) as Hres.
  pose proof (fix_unversioned _ _ _ _ _ _ Hv Hget Hres Hmis) as Hrun.
  cbv zeta in Hrun. rewrite Hrun. clear Hrun. cbn [fst snd].
  assert (Hpath : object_path bucket_name object_name version_id =
                  "s3://" +:+ bucket_name +:+ "/" +:+ object_name).
  { unfold object_path. by rewrite Hv. }
  rewrite Hpath.
  match goal with |- context [logged ?pa ?ts ?it (tick ?w0)] =>
    set (w1 := logged pa ts it (tick w0)) end.
  assert (Hs3 : s3_objects w1 =
    <[(bucket_name, object_name) :=
        put_version (S3Version (version_ids w (copies w))
                       (sse_type_of (dual_layer_encryption r))
                       (Some (kms_key_arn r)) (body o))
                    (default [] (s3_objects w !! (bucket_name, object_name)))]>
      (s3_objects w)) by reflexivity.
  assert (Hlatest : lookup_object (s3_objects w1) bucket_name object_name None =
                    inr (S3Version (version_ids w (copies w))
                           (sse_type_of (dual_layer_encryption r))
                           (Some (kms_key_arn r)) (body o))).
  { rewrite Hs3. apply lookup_latest_put. }
  assert (Hget1 : lookup_object (s3_objects w1) bucket_name object_name
                    (requested version_id) = inr (S3Version (version_ids w (copies w))
                         (sse_type_of (dual_layer_encryption r))
                         (Some (kms_key_arn r)) (body o)))
    by (by rewrite (requested_falsy _ Hv)).
  assert (Hres1 : get_kms_key_info_for_s3_prefix (ddb_mapping w1)
                    bucket_name object_name = Some (info_of r)) by exact Hres.
  rewrite (fix_compliant _ _ _ _ _ _ Hget1 Hres1 (compliant_new o r _)).
  cbn [fst snd]. rewrite Hpath. autorewrite with world.
  split_and!.
  - done.
  - exact Hlatest.
  - intros key Hkey. rewrite Hs3. by apply lookup_insert_ne.
  - subst w1. autorewrite with world. by rewrite <- app_assoc.
  - done.
  - done.
  - done.
  - subst w1. by autorewrite with world.
Qed.

Lemma unversioned_rewrite_then_nothing_to_do_witness :
  let run := fix_encryption_if_incorrect "bkt" "a/x" (Some "") Examples.versioned_world in
  run.2 = inr tt /\
  lookup_object (s3_objects run.1) "bkt" "a/x" None
    = inr (S3Version "v2" "aws:kms" (Some "key-a") "hello").
Proof.
  cbv zeta.
  destruct (unversioned_rewrite_then_nothing_to_do Examples.versioned_world
              "bkt" "a/x" "a/" (Some "") (S3Version "v1" "AES256" None "hello")
              (Examples.policy "key-a" false))
    as (Hret & Hlatest & _).
  - reflexivity.
  - vm_compute. reflexivity.
  - apply longest_stored_prefix_by_check; vm_compute; reflexivity.
  - simpl. intros [Hsse _]. discriminate Hsse.
  - split; [exact Hret|exact Hlatest].
Defined.

(** X8. A run for an object that S3 does not return. When the key is not
    in the bucket, or the version asked for is not among the versions of
    the object, the run raises the exception of S3 (NoSuchKey or
    NoSuchVersion) at its first step: the world is as it was, with no copy,
    no delete and no log entry. In the batch handler the message of a
    record that names such an object is reported as failed: a message with
    that one record gives the status 500 with the id of the message as the
    one failure, and the world is as it was. *)
Theorem missing_object_raises_and_changes_nothing
    (w : world) (bucket_name object_name : string) (version_id : option string)
    (e : exn) :
  lookup_object (s3_objects w) bucket_name object_name (requested version_id) = inl e ->
  fix_encryption_if_incorrect bucket_name object_name version_id w = (w, inl e) /\
  (e = NoSuchKey \/ e = NoSuchVersion) /\
  (forall (unquote_plus : string -> string) (message_id quoted : string),
     unquote_plus quoted = object_name ->
     S3Encrypt.lambda_handler unquote_plus
       [S3Encrypt.SqsMessage message_id
          (Some [S3Encrypt.S3Record bucket_name quoted version_id])] w
     = (w, {| S3Encrypt.statusCode := 500;
              S3Encrypt.batchItemFailures := Some [message_id] |})).
Proof.
  intros Hget. pose proof (fix_raises _ _ _ _ _ Hget) as Hrun.
  split_and!; [exact Hrun|by eapply lookup_object_error|].
  intros unquote_plus message_id quoted Hq.
  unfold S3Encrypt.lambda_handler, S3Encrypt.process_message, S3Encrypt.process_record.
  cbn [foldl S3Encrypt.sqs_body S3Encrypt.messageId S3Encrypt.rec_bucket_name
       S3Encrypt.rec_object_key S3Encrypt.rec_version_id fst snd].
  rewrite Hq, Hrun. reflexivity.
Qed.

Lemma missing_object_raises_and_changes_nothing_witness :
  fix_encryption_if_incorrect "bkt" "a/gone" None Examples.versioned_world
  = (Examples.versioned_world, inl NoSuchKey) /\
  S3Encrypt.lambda_handler S3Encrypt.unquote_plain
    [S3Encrypt.SqsMessage "id-2" (Some [S3Encrypt.S3Record "bkt" "a/gone" None])]
    Examples.versioned_world
  = (Examples.versioned_world,
     {| S3Encrypt.statusCode := 500; S3Encrypt.batchItemFailures := Some ["id-2"] |}).
Proof.
  destruct (missing_object_raises_and_changes_nothing Examples.versioned_world
              "bkt" "a/gone" None NoSuchKey) as (Hrun & _ & Hbatch).
  - vm_compute. reflexivity.
  - split; [exact Hrun|]. by apply Hbatch.
Defined.

Lemma redelivered_version_raises_witness :
  let w' := (fix_encryption_if_incorrect "bkt" "a/x" (Some "v1")
               Examples.versioned_world).1 in
  fix_encryption_if_incorrect "bkt" "a/x" (Some "v1") w' = (w', inl NoSuchVersion).
Proof.
  apply (redelivered_version_raises Examples.versioned_world "bkt" "a/x" "v1" "a/"
           (S3Version "v1" "AES256" None "hello") (Examples.policy "key-a" false)).
  - discriminate.
  - vm_compute. reflexivity.
  - apply longest_stored_prefix_by_check; vm_compute; reflexivity.
  - reflexivity.
  - vm_compute. discriminate.
Defined.

(** * More of the batch handler *)

Module BatchFacts.
Import FixEncryption S3Encrypt HandlerFacts.

Section Handler.

Variable unquote_plus : string -> string.

(** The object a record names, as the handler passes it on. *)
Abbreviation target rec := (rec_bucket_name rec, unquote_plus (rec_object_key rec)).

Lemma process_record_frame (id : string) (st : world * list string) (rec : s3_record) :
  ddb_mapping (process_record unquote_plus id st rec).1 = ddb_mapping st.1 /\
  forall key, key <> target rec ->
    s3_objects (process_record unquote_plus id st rec).1 !! key = s3_objects st.1 !! key.
Proof.
  unfold process_record.
  pose proof (fix_frame (rec_bucket_name rec) (unquote_plus (rec_object_key rec))
                (rec_version_id rec) st.1) as [Hmap Hs3].
  by destruct (fix_encryption_if_incorrect _ _ _ st.1) as [w' [e|[]]].
Qed.

Lemma process_records_frame (id : string) (recs : list s3_record) :
  forall st : world * list string,
    ddb_mapping (foldl (process_record unquote_plus id) st recs).1 = ddb_mapping st.1 /\
    forall key, (forall rec, rec ∈ recs -> key <> target rec) ->
      s3_objects (foldl (process_record unquote_plus id) st recs).1 !! key
      = s3_objects st.1 !! key.
Proof.
  induction recs as [|rec recs IH]; intros st; simpl; [done|].
  destruct (IH (process_record unquote_plus id st rec)) as [Hmap Hs3].
  destruct (process_record_frame id st rec) as [Hmap' Hs3'].
  split; [congruence|]. intros key Hkey.
  rewrite Hs3, Hs3'; [done|..].
  - apply Hkey. by left.
  - intros rec' Hin. apply Hkey. by right.
Qed.

Lemma process_message_frame (st : world * list string) (m : sqs_message) :
  ddb_mapping (process_message unquote_plus st m).1 = ddb_mapping st.1 /\
  forall key, (forall recs rec, sqs_body m = Some recs -> rec ∈ recs -> key <> target rec) ->
    s3_objects (process_message unquote_plus st m).1 !! key = s3_objects st.1 !! key.
Proof.
  unfold process_message. destruct (sqs_body m) as [recs|]; [|done].
  destruct (process_records_frame (messageId m) recs st) as [Hmap Hs3].
  split; [done|]. intros key Hkey. apply Hs3. intros rec Hin. by apply (Hkey recs).
Qed.

Lemma process_messages_frame (ms : list sqs_message) :
  forall st : world * list string,
    ddb_mapping (foldl (process_message unquote_plus) st ms).1 = ddb_mapping st.1 /\
    forall key,
      (forall m recs rec, m ∈ ms -> sqs_body m = Some recs -> rec ∈ recs ->
                          key <> target rec) ->
      s3_objects (foldl (process_message unquote_plus) st ms).1 !! key
      = s3_objects st.1 !! key.
Proof.
  induction ms as [|m ms IH]; intros st; simpl; [done|].
  destruct (IH (process_message unquote_plus st m)) as [Hmap Hs3].
  destruct (process_message_frame st m) as [Hmap' Hs3'].
  split; [congruence|]. intros key Hkey.
  rewrite Hs3, Hs3'; [done|..].
  - intros recs rec. apply Hkey. by left.
  - intros m' recs rec Hin. apply Hkey. by right.
Qed.

(** The handler in terms of its loop. *)
Lemma lambda_handler_run (ms : list sqs_message) (w : world) :
  (lambda_handler unquote_plus ms w).1
    = (foldl (process_message unquote_plus) (w, []) ms).1 /\
  failures_of (lambda_handler unquote_plus ms w).2
    = (foldl (process_message unquote_plus) (w, []) ms).2 /\
  (statusCode (lambda_handler unquote_plus ms w).2 = 200 <->
   (foldl (process_message unquote_plus) (w, []) ms).2 = []) /\
  (statusCode (lambda_handler unquote_plus ms w).2 = 500 <->
   (foldl (process_message unquote_plus) (w, []) ms).2 <> []).
Proof.
  unfold lambda_handler.
  destruct (foldl (process_message unquote_plus) (w, []) ms) as [w' [|id l]]; simpl.
  - split_and!; try done. all: split; [discriminate|done].
  - split_and!; try done. all: split; [discriminate|done].
Qed.

End Handler.

End BatchFacts.

Import BatchFacts.

(** X10. What the remediation leaves alone. A run of the remediation never
    changes the mapping table, and changes no object of S3 but the one it
    is called for. So it is for the batch handler: after a batch the
    mapping table is as before, and so is every object that no record of
    the batch names (by bucket and decoded key). *)
Theorem remediation_leaves_policies_and_other_objects
    (unquote_plus : string -> string) (w : world) :
  (forall bucket_name object_name version_id,
     let run := fix_encryption_if_incorrect bucket_name object_name version_id w in
     ddb_mapping run.1 = ddb_mapping w /\
     forall key, key <> (bucket_name, object_name) ->
                 s3_objects run.1 !! key = s3_objects w !! key) /\
  (forall event,
     let run := lambda_handler unquote_plus event w in
     ddb_mapping run.1 = ddb_mapping w /\
     forall key,
       (forall m recs rec, m ∈ event -> sqs_body m = Some recs -> rec ∈ recs ->
          key <> (rec_bucket_name rec, unquote_plus (rec_object_key rec))) ->
       s3_objects run.1 !! key = s3_objects w !! key).
Proof.
  split.
  - intros b k vid. apply fix_frame.
  - intros event. cbv zeta.
    destruct (lambda_handler_run unquote_plus event w) as (-> & _).
    apply (process_messages_frame unquote_plus event (w, [])).
Qed.

(** X11. A batch and its parts. Handling a batch is handling its first
    part and then, in the world that leaves, the rest: the final world is
    the same, the failures are those of the first part followed by those of
    the rest, and the status is 200 exactly when both parts give 200. A
    failed message therefore does not keep the later messages from being
    handled. *)
Theorem batch_is_handled_part_by_part
    (unquote_plus : string -> string) (first rest : list sqs_message) (w : world) :
  let whole := lambda_handler unquote_plus (first ++ rest) w in
  let run1 := lambda_handler unquote_plus first w in
  let run2 := lambda_handler unquote_plus rest run1.1 in
  whole.1 = run2.1 /\
  failures_of whole.2 = failures_of run1.2 ++ failures_of run2.2 /\
  (statusCode whole.2 = 200 <-> statusCode run1.2 = 200 /\ statusCode run2.2 = 200) /\
  (statusCode whole.2 = 200 \/ statusCode whole.2 = 500).
Proof.
  cbv zeta.
  destruct (lambda_handler_run unquote_plus (first ++ rest) w)
    as (Hw & Hf & H200 & H500).
  destruct (lambda_handler_run unquote_plus first w) as (Hw1 & Hf1 & H200' & _).
  destruct (lambda_handler_run unquote_plus rest (lambda_handler unquote_plus first w).1)
    as (Hw2 & Hf2 & H200'' & _).
  rewrite foldl_app in Hw, Hf, H200, H500.
  rewrite Hw1 in Hw2, Hf2, H200''.
  destruct (foldl (process_message unquote_plus) (w, []) first) as [w1 f1] eqn:Hfold1.
  simpl in *.
  rewrite (process_messages_app unquote_plus rest w1 f1) in Hw, Hf, H200, H500.
  simpl in *. rewrite Hw1.
  split_and!.
  - congruence.
  - by rewrite Hf, Hf1, Hf2.
  - rewrite H200, H200', H200''. split.
    + by intros [-> ->]%app_eq_nil.
    + by intros [-> ->].
  - destruct (f1 ++ (foldl (process_message unquote_plus) (w1, []) rest).2) eqn:Hl.
    + left. by apply H200.
    + right. by apply H500.
Qed.

(** * More of the resolver *)

(** X12. What the resolver looks at. The result for a bucket and an object
    key depends only on the key and the flag of the records of that bucket
    whose prefix is a prefix of the object key: two mapping tables that
    agree on these give the same result. Records of other buckets, records
    under other prefixes and the timestamps of the records do not count. *)
Theorem resolution_looks_only_at_the_prefixes_of_the_key
    (t t' : gmap (string * string) mapping_item) (bucket_name object_name : string) :
  (forall p, StrOrd.startswith object_name p = true ->
             info_of <$> t' !! (bucket_name, p) = info_of <$> t !! (bucket_name, p)) ->
  get_kms_key_info_for_s3_prefix t' bucket_name object_name
  = get_kms_key_info_for_s3_prefix t bucket_name object_name.
Proof.
  intros Hagree.
  pose proof (resolver_cases t bucket_name object_name) as Hc.
  destruct (get_kms_key_info_for_s3_prefix t bucket_name object_name) as [info|].
  - destruct Hc as (p & r & _ & _ & (Hl & Hs & Hmax) & -> & _).
    pose proof (Hagree p Hs) as Hp. rewrite Hl in Hp. simpl in Hp.
    destruct (t' !! (bucket_name, p)) as [r'|] eqn:Hl'; [|discriminate].
    assert (Hr : info_of r = info_of r') by (cbn in Hp; congruence). rewrite Hr.
    apply (resolver_Some t' bucket_name object_name p). split_and!; [done..|].
    intros q rq Hq Hsq. pose proof (Hagree q Hsq) as Hq'. rewrite Hq in Hq'.
    destruct (t !! (bucket_name, q)) as [rq'|] eqn:Hlq; [|discriminate].
    by apply (Hmax q rq').
  - apply resolver_None. intros p r' Hl'.
    destruct (StrOrd.startswith object_name p) eqn:Hs; [|done].
    pose proof (Hagree p Hs) as Hp. rewrite Hl' in Hp.
    destruct (t !! (bucket_name, p)) as [r|] eqn:Hl; [|discriminate].
    apply Hc in Hl. congruence.
Qed.

Lemma resolution_looks_only_at_the_prefixes_of_the_key_witness :
  get_kms_key_info_for_s3_prefix Examples.busy_table "bkt" "a/b/cde"
  = get_kms_key_info_for_s3_prefix Examples.nested_table "bkt" "a/b/cde".
Proof.
  apply resolution_looks_only_at_the_prefixes_of_the_key.
  intros p Hp. unfold StrOrd.startswith in Hp.
  repeat (destruct p as [|? p]; [vm_compute; reflexivity|];
          cbn [String.prefix] in Hp;
          destruct (ascii_dec _ _) as [->|]; [|discriminate]).
  destruct p; [vm_compute; reflexivity|discriminate].
Defined.



(** * The remediation run again *)

Module RerunFacts.
Import FixEncryption.

(** The function run again and again on an object under no stored prefix. *)
Lemma rerun_not_configured (n : nat) (b k : string) (vid : option string) o :
  forall w : world,
    lookup_object (s3_objects w) b k (requested vid) = inr o ->
    get_kms_key_info_for_s3_prefix (ddb_mapping w) b k = None ->
    let run := rerun n b k vid w in
    let it := log_entry (sse_type o) (sse_kms_key_id o) "None" "None"
                ACTION_NONE REASON_NOT_CONFIGURED None in
    run.2 = inr tt /\
    s3_objects run.1 = s3_objects w /\
    ddb_mapping run.1 = ddb_mapping w /\
    calls run.1 =
      calls w ++ ((fun i => LogPutItem (object_path b k vid) (clock w (ticks w + i)) it)
                  <$> seq 0 n).
Proof.
  induction n as [|n IH]; intros w Hget Hres; simpl.
  - split_and!; try done. by rewrite app_nil_r.
  - unfold bind. rewrite (fix_not_configured _ _ _ _ _ Hget Hres).
    match goal with |- context [rerun n b k vid ?w1] =>
      destruct (IH w1) as (Hret & Hs3 & Hmap & Hcalls); [done..|] end.
    simpl in Hret, Hs3, Hmap, Hcalls.
    split_and!; [done..|]. rewrite Hcalls. simpl.
    rewrite <- app_assoc. simpl. rewrite Nat.add_0_r. do 2 f_equal.
    rewrite <- fmap_S_seq, <- list_fmap_compose. apply list_fmap_ext.
    intros i x _. simpl. do 2 f_equal. lia.
Qed.

(** The world an unversioned rewrite leaves: the copy is the latest
    version, and it complies. *)
Lemma after_unversioned_rewrite (b k : string) (vid : option string) (w : world) o r :
  truthy vid = false ->
  lookup_object (s3_objects w) b k None = inr o ->
  get_kms_key_info_for_s3_prefix (ddb_mapping w) b k = Some (info_of r) ->
  compliant o r = false ->
  let run := fix_encryption_if_incorrect b k vid w in
  let new := {| version_id := version_ids w (copies w);
                sse_type := sse_type_of (dual_layer_encryption r);
                sse_kms_key_id := Some (kms_key_arn r); body := body o |} in
  run.2 = inr tt /\
  lookup_object (s3_objects run.1) b k (requested vid) = inr new /\
  get_kms_key_info_for_s3_prefix (ddb_mapping run.1) b k = Some (info_of r).
Proof.
  intros Hv Hget Hres Hmis. cbv zeta.
  pose proof (fix_unversioned _ _ _ _ _ _ Hv Hget Hres Hmis) as Hrun.
  cbv zeta in Hrun. rewrite Hrun. clear Hrun. cbn [fst snd].
  rewrite (requested_falsy _ Hv). autorewrite with world.
  split_and!; [done| |done]. apply lookup_latest_put.
Qed.

(** The world the rewrite of a version leaves does not have the version. *)
Lemma after_versioned_rewrite (b k v : string) (w : world) o r :
  v <> "" ->
  lookup_object (s3_objects w) b k (Some v) = inr o ->
  get_kms_key_info_for_s3_prefix (ddb_mapping w) b k = Some (info_of r) ->
  compliant o r = false ->
  version_ids w (copies w) <> v ->
  let run := fix_encryption_if_incorrect b k (Some v) w in
  run.2 = inr tt /\
  lookup_object (s3_objects run.1) b k (Some v) = inl NoSuchVersion.
Proof.
  intros Hv Hget Hres Hmis Hfresh. cbv zeta.
  pose proof (fix_versioned _ _ _ _ _ _ (truthy_Some _ Hv) Hget Hres Hmis) as Hrun.
  cbv zeta in Hrun. rewrite Hrun. cbn [fst snd]. split; [done|].
  destruct (lookup_object_Some_inv _ _ _ _ _ Hget) as [vs Hvs].
  autorewrite with world. rewrite Hvs. change (default [] (Some vs)) with vs.
  match goal with |- context [put_version ?new vs] =>
    by destruct (lookup_after_replace (s3_objects w) b k v vs
                   new Hvs Hfresh) as (_ & _ & Hold & _) end.
Qed.

End RerunFacts.

Import RerunFacts.

(** C9, as the code has it. The remediation of an object that S3 returns,
    run again for the same event. When the encryption type and the key of
    the object are the ones of the record of the longest stored prefix of
    its key, the run makes no copy and no delete (the objects are as
    before) and its one request is the put of a log entry with action None
    and the reason that the object already uses the correct key; any number
    of runs in a row do the same. So it is, run after run, for an object
    under no stored prefix, with the reason that no key is configured.
    After a rewrite, a second run is such a run without effect only when
    the event names no version: the latest version of the object is then
    the copy, which complies, and every further run only puts the log
    entry. When the event names the version that the first run replaced
    (S3 having named the copy with another id), the second run does not
    find the version: it raises NoSuchVersion, changes nothing and puts no
    log entry. *)
Theorem second_run_does_nothing_unless_its_version_was_replaced
    (w : world) (bucket_name object_name : string) (version_id : option string)
    (o : s3_version) :
  lookup_object (s3_objects w) bucket_name object_name (requested version_id) = inr o ->
  let path := object_path bucket_name object_name version_id in
  let quiet (w0 : world) (it : log_item) :=
    action_taken it = "None" /\
    forall n,
      let run := rerun n bucket_name object_name version_id w0 in
      run.2 = inr tt /\
      s3_objects run.1 = s3_objects w0 /\
      ddb_mapping run.1 = ddb_mapping w0 /\
      calls run.1 =
        calls w0 ++ ((fun i => LogPutItem path (clock w0 (ticks w0 + i)) it) <$> seq 0 n) in
  let run1 := fix_encryption_if_incorrect bucket_name object_name version_id w in
  let run2 := fix_encryption_if_incorrect bucket_name object_name version_id run1.1 in
  (forall p r,
     longest_stored_prefix (ddb_mapping w) bucket_name object_name p r ->
     sse_type o = sse_type_of (dual_layer_encryption r) ->
     sse_kms_key_id o = Some (kms_key_arn r) ->
     let it := log_entry (sse_type o) (sse_kms_key_id o)
                 (sse_type_of (dual_layer_encryption r)) (kms_key_arn r)
                 "None" "Already using the correct key" None in
     quiet w it /\
     ddb_log run1.1 = <[(path, clock w (ticks w)) := it]> (ddb_log w)) /\
  ((forall p r, ddb_mapping w !! (bucket_name, p) = Some r ->
                StrOrd.startswith object_name p = false) ->
   quiet w (log_entry (sse_type o) (sse_kms_key_id o) "None" "None" "None"
              "No KMS key configured for this object's prefix" None)) /\
  (forall p r,
     longest_stored_prefix (ddb_mapping w) bucket_name object_name p r ->
     ~ (sse_type o = sse_type_of (dual_layer_encryption r) /\
        sse_kms_key_id o = Some (kms_key_arn r)) ->
     truthy version_id = false ->
     let new_sse := sse_type_of (dual_layer_encryption r) in
     run1.2 = inr tt /\
     s3_objects run1.1 <> s3_objects w /\
     lookup_object (s3_objects run1.1) bucket_name object_name None =
       inr {| version_id := version_ids w (copies w); sse_type := new_sse;
              sse_kms_key_id := Some (kms_key_arn r); body := body o |} /\
     quiet run1.1 (log_entry new_sse (Some (kms_key_arn r)) new_sse (kms_key_arn r)
                     "None" "Already using the correct key" None)) /\
  (forall p r v,
     longest_stored_prefix (ddb_mapping w) bucket_name object_name p r ->
     ~ (sse_type o = sse_type_of (dual_layer_encryption r) /\
        sse_kms_key_id o = Some (kms_key_arn r)) ->
     version_id = Some v -> v <> "" ->
     version_ids w (copies w) <> v ->
     run1.2 = inr tt /\
     run2 = (run1.1, inl NoSuchVersion)).
Proof.
  intros Hget. cbv zeta. split_and!.
  - intros p r Hlong Hsse Hkey.
    assert (Hc : compliant o r = true) by by apply compliant_true.
    pose proof (resolver_Some _ _ _ _ _ Hlong) as Hres.
    split; [split; [reflexivity|]|].
    + intros n. by apply rerun_compliant.
    + by rewrite (fix_compliant _ _ _ _ _ _ Hget Hres Hc).
  - intros Hnone. split; [reflexivity|]. intros n.
    apply rerun_not_configured; [done|]. by apply resolver_None.
  - intros p r Hlong Hmis Hv.
    apply compliant_false in Hmis.
    pose proof (resolver_Some _ _ _ _ _ Hlong) as Hres.
    rewrite (requested_falsy _ Hv) in Hget.
    destruct (after_unversioned_rewrite _ _ _ _ _ _ Hv Hget Hres Hmis)
      as (Hret & Hget1 & Hres1).
    split_and!; [exact Hret| | |reflexivity|].
    + intros Hsame. rewrite (requested_falsy _ Hv), Hsame, Hget in Hget1.
      injection Hget1 as Ho. rewrite Ho in Hmis.
      by rewrite compliant_new in Hmis.
    + by rewrite (requested_falsy _ Hv) in Hget1.
    + intros n.
      exact (rerun_compliant n _ _ _ _ _ (compliant_new o r _) _ Hget1 Hres1).
  - intros p r v Hlong Hmis -> Hv Hfresh.
    apply compliant_false in Hmis.
    pose proof (resolver_Some _ _ _ _ _ Hlong) as Hres.
    assert (Hreq : requested (Some v) = Some v).
    { unfold requested. by rewrite (truthy_Some _ Hv). }
    rewrite Hreq in Hget.
    destruct (after_versioned_rewrite _ _ _ _ _ _ Hv Hget Hres Hmis Hfresh)
      as (Hret & Hgone).
    split; [exact Hret|]. apply fix_raises. by rewrite Hreq.
Qed.

Lemma second_run_does_nothing_unless_its_version_was_replaced_witness :
  let run1 := fix_encryption_if_incorrect "bkt" "a/x" None Examples.versioned_world in
  run1.2 = inr tt /\
  s3_objects run1.1 <> s3_objects Examples.versioned_world /\
  (rerun 3 "bkt" "a/x" None run1.1).2 = inr tt /\
  s3_objects (rerun 3 "bkt" "a/x" None run1.1).1 = s3_objects run1.1.
Proof.
  cbv zeta.
  destruct (second_run_does_nothing_unless_its_version_was_replaced
              Examples.versioned_world "bkt" "a/x" None
              (S3Version "v1" "AES256" None "hello"))
    as (_ & _ & Hcopy & _).
  - vm_compute. reflexivity.
  - destruct (Hcopy "a/" (Examples.policy "key-a" false))
      as (Hret & Hs3 & _ & _ & Hn).
    + apply longest_stored_prefix_by_check; vm_compute; reflexivity.
    + simpl. intros [Hsse _]. discriminate Hsse.
    + reflexivity.
    + destruct (Hn 3) as (Hret3 & Hs33 & _).
      split_and!; [exact Hret|exact Hs3|exact Hret3|exact Hs33].
Defined.

(** A second delivery that is no run without effect: the event names the
    version v1 of a/x; the first run replaces the version, the second run
    raises NoSuchVersion and puts no log entry. *)
Lemma second_run_for_a_replaced_version_raises :
  let run1 := fix_encryption_if_incorrect "bkt" "a/x" (Some "v1") Examples.versioned_world in
  let run2 := fix_encryption_if_incorrect "bkt" "a/x" (Some "v1") run1.1 in
  lookup_object (s3_objects Examples.versioned_world) "bkt" "a/x" (Some "v1")
    = inr (S3Version "v1" "AES256" None "hello") /\
  run1.2 = inr tt /\
  run2.2 = inl NoSuchVersion /\
  calls run2.1 = calls run1.1 /\
  ddb_log run2.1 = ddb_log run1.1.
Proof.
  cbv zeta.
  destruct (after_versioned_rewrite "bkt" "a/x" "v1" Examples.versioned_world
              (S3Version "v1" "AES256" None "hello") (Examples.policy "key-a" false))
    as (Hret & Hgone).
  - discriminate.
  - vm_compute. reflexivity.
  - vm_compute. reflexivity.
  - reflexivity.
  - vm_compute. discriminate.
  - rewrite (fix_raises "bkt" "a/x" (Some "v1") _ _ Hgone).
    split_and!; [vm_compute; reflexivity|exact Hret|reflexivity..].
Qed.
